(** * lang-sns: storage, eviction, tagging, deletion and search of script.js

    A shallow embedding of the data-handling functions of [script.js]
    (the browser-local language-learning feed) together with the
    properties its specification states about them.

    Conventions.
    - A JavaScript string is the list of its UTF-16 code units ([jsstring]);
      [js "abc"] writes an ASCII literal.
    - Numbers that the program only ever uses as integers (ids, timestamps,
      the schema version) are [Z].
    - [state.data] is the record [AppData]; the mutable global [state] and
      the [localStorage] slot are threaded explicitly as [State].
    - The Unicode database of the JavaScript engine (general categories
      beyond ASCII, lower-casing of non-ASCII text) is the class
      [Unicode]. *)

From Stdlib Require Import ZArith List Lia String Ascii Bool Permutation Sorted.
From stdpp Require Import base list.
Import ListNotations.
Open Scope Z_scope.

(* ================================================================= *)
(** ** Strings *)

Abbreviation jsstring := (list Z) (only parsing).

Definition js (s : string) : jsstring :=
  map (fun a => Z.of_N (N_of_ascii a)) (list_ascii_of_string s).

Definition str_length (s : jsstring) : Z := Z.of_nat (length s).

Definition unit_eqb (a b : Z) : bool := a =? b.

Fixpoint str_eqb (a b : jsstring) : bool :=
  match a, b with
  | [], [] => true
  | x :: a', y :: b' => unit_eqb x y && str_eqb a' b'
  | _, _ => false
  end.

(** JavaScript truthiness of a string-or-null value: [null] and the empty
    string are falsy. *)
Definition truthy (v : option jsstring) : bool :=
  match v with
  | Some (_ :: _) => true
  | _ => false
  end.

(** [a || null] for such a value. *)
Definition or_null (v : option jsstring) : option jsstring :=
  if truthy v then v else None.

(** Strict equality [a === b] of two string-or-null values. *)
Definition opt_str_eqb (a b : option jsstring) : bool :=
  match a, b with
  | Some x, Some y => str_eqb x y
  | None, None => true
  | _, _ => false
  end.

(** [s.startsWith(p)] *)
Fixpoint startsWith (p s : jsstring) : bool :=
  match p, s with
  | [], _ => true
  | x :: p', y :: s' => unit_eqb x y && startsWith p' s'
  | _ :: _, [] => false
  end.

(** [s.includes(p)] *)
Fixpoint includes (p s : jsstring) : bool :=
  startsWith p s ||
  match s with
  | [] => false
  | _ :: s' => includes p s'
  end.

(** White space and line terminators: what [trim] strips and [\s] matches. *)
Definition is_space (c : Z) : bool :=
  ((9 <=? c) && (c <=? 13)) || (c =? 32) || (c =? 160) || (c =? 5760)
  || ((8192 <=? c) && (c <=? 8202)) || (c =? 8232) || (c =? 8233)
  || (c =? 8239) || (c =? 8287) || (c =? 12288) || (c =? 65279).

Fixpoint trimStart (s : jsstring) : jsstring :=
  match s with
  | c :: s' => if is_space c then trimStart s' else s
  | [] => []
  end.

Definition trimEnd (s : jsstring) : jsstring := rev (trimStart (rev s)).

Definition trim (s : jsstring) : jsstring := trimEnd (trimStart s).

(* ----------------------------------------------------------------- *)
(** *** Code points and the engine's Unicode tables *)

Definition is_high (c : Z) : bool := (55296 <=? c) && (c <=? 56319).
Definition is_low (c : Z) : bool := (56320 <=? c) && (c <=? 57343).

Definition codepoint (h l : Z) : Z := 65536 + (h - 55296) * 1024 + (l - 56320).

Definition ascii_upper (c : Z) : bool := (65 <=? c) && (c <=? 90).
Definition ascii_lower (c : Z) : bool := (97 <=? c) && (c <=? 122).
Definition ascii_digit (c : Z) : bool := (48 <=? c) && (c <=? 57).

Definition ascii_to_lower (c : Z) : Z := if ascii_upper c then c + 32 else c.

Definition is_ascii (c : Z) : bool := (0 <=? c) && (c <? 128).

(** What the engine knows about text outside ASCII: whether a code point
    has general category L or N, and [toLowerCase] of a string that is not
    pure ASCII. *)
Class Unicode := {
  unicodeLN : Z -> bool;
  unicodeLower : jsstring -> jsstring
}.

(** An engine that knows no letters outside ASCII and leaves other text
    alone; used to run the definitions on concrete inputs. *)
Definition asciiEngine : Unicode :=
  {| unicodeLN := fun _ => false; unicodeLower := fun s => s |}.

Section Text.
Context {U : Unicode}.

(** [\p{L}\p{N}] on a code point. Inside ASCII these are exactly the
    letters and the decimal digits. *)
Definition letter_or_number (cp : Z) : bool :=
  if is_ascii cp then ascii_upper cp || ascii_lower cp || ascii_digit cp
  else unicodeLN cp.

(** The character class [[\p{L}\p{N}_-]]. *)
Definition tag_char (cp : Z) : bool :=
  letter_or_number cp || (cp =? 95) || (cp =? 45).

(** [s.toLowerCase()] *)
Definition toLowerCase (s : jsstring) : jsstring :=
  if forallb is_ascii s then map ascii_to_lower s else unicodeLower s.

(* ================================================================= *)
(** ** Tag extraction: [extractTags] *)

(** The greedy group [([\p{L}\p{N}_-]+)] tried at the head of [s]: the
    longest prefix made of class code points (a surrogate pair is one code
    point, as the [u] flag has it) and what follows it. *)
Fixpoint class_run (s : jsstring) : jsstring * jsstring :=
  match s with
  | [] => ([], [])
  | h :: t =>
      match t with
      | l :: t' =>
          if is_high h && is_low l then
            if tag_char (codepoint h l)
            then let (r, rest) := class_run t' in (h :: l :: r, rest)
            else ([], s)
          else
            if tag_char h
            then let (r, rest) := class_run t in (h :: r, rest)
            else ([], s)
      | [] => if tag_char h then ([h], []) else ([], s)
      end
  end.

(** The leftmost match of [/#([\p{L}\p{N}_-]+)/u] in [s]: the offset of
    its [#] and the captured group. *)
Fixpoint regex_search (s : jsstring) : option (nat * jsstring) :=
  match s with
  | [] => None
  | c :: t =>
      let later := match regex_search t with
                   | Some (off, cap) => Some (S off, cap)
                   | None => None
                   end in
      if c =? 35 then
        match fst (class_run t) with
        | [] => later
        | cap => Some (O, cap)
        end
      else later
  end.

(** [regex.exec(str)] for the global regex: the search starts at
    [lastIndex]; a match yields the group [m[1]] and the new [lastIndex],
    a failure yields [null] and resets [lastIndex] to 0. *)
Definition regex_exec (str : jsstring) (lastIndex : nat)
  : option jsstring * nat :=
  if (length str <? lastIndex)%nat then (None, O)
  else
    match regex_search (drop lastIndex str) with
    | Some (off, cap) => (Some cap, (lastIndex + off + 1 + length cap)%nat)
    | None => (None, O)
    end.

(** [tagSet.add(x)]: a [Set] keeps insertion order and ignores a value
    it already holds. *)
Definition set_add (x : jsstring) (tagSet : list jsstring) : list jsstring :=
  if existsb (str_eqb x) tagSet then tagSet else tagSet ++ [x].

(** [while ((m = regex.exec(t.content))) tagSet.add(m[1]);]
    Every successful [exec] moves [lastIndex] forward, so [exec] is called
    at most [S (length content)] times; [fuel] counts the calls still
    allowed. The result is the set and the [lastIndex] the regex is left
    with. *)
Fixpoint exec_loop (fuel : nat) (content : jsstring) (lastIndex : nat)
    (tagSet : list jsstring) : list jsstring * nat :=
  match fuel with
  | O => (tagSet, lastIndex)
  | S fuel' =>
      match regex_exec content lastIndex with
      | (None, lastIndex') => (tagSet, lastIndex')
      | (Some m1, lastIndex') =>
          exec_loop fuel' content lastIndex' (set_add m1 tagSet)
      end
  end.

End Text.

(* ================================================================= *)
(** ** Data model *)

Record TextVariant := {
  content : jsstring;
  language : jsstring;
  pronunciation : option jsstring   (* absent on the soft-delete placeholder *)
}.

Module Post.
Record t := {
  id : Z;
  texts : list TextVariant;
  tags : list jsstring;
  createdAt : Z;
  updatedAt : Z;
  imageId : option jsstring;
  imageRemoved : bool;
  isDeleted : bool;
  liked : bool;
  likedAt : option Z;
  repostOf : option Z
}.

Definition set_texts (v : list TextVariant) (p : t) : t :=
  {| id := id p; texts := v; tags := tags p; createdAt := createdAt p;
     updatedAt := updatedAt p; imageId := imageId p;
     imageRemoved := imageRemoved p; isDeleted := isDeleted p;
     liked := liked p; likedAt := likedAt p; repostOf := repostOf p |}.

Definition set_tags (v : list jsstring) (p : t) : t :=
  {| id := id p; texts := texts p; tags := v; createdAt := createdAt p;
     updatedAt := updatedAt p; imageId := imageId p;
     imageRemoved := imageRemoved p; isDeleted := isDeleted p;
     liked := liked p; likedAt := likedAt p; repostOf := repostOf p |}.

Definition set_updatedAt (v : Z) (p : t) : t :=
  {| id := id p; texts := texts p; tags := tags p; createdAt := createdAt p;
     updatedAt := v; imageId := imageId p;
     imageRemoved := imageRemoved p; isDeleted := isDeleted p;
     liked := liked p; likedAt := likedAt p; repostOf := repostOf p |}.

Definition set_imageId (v : option jsstring) (p : t) : t :=
  {| id := id p; texts := texts p; tags := tags p; createdAt := createdAt p;
     updatedAt := updatedAt p; imageId := v;
     imageRemoved := imageRemoved p; isDeleted := isDeleted p;
     liked := liked p; likedAt := likedAt p; repostOf := repostOf p |}.

Definition set_imageRemoved (v : bool) (p : t) : t :=
  {| id := id p; texts := texts p; tags := tags p; createdAt := createdAt p;
     updatedAt := updatedAt p; imageId := imageId p;
     imageRemoved := v; isDeleted := isDeleted p;
     liked := liked p; likedAt := likedAt p; repostOf := repostOf p |}.

Definition set_isDeleted (v : bool) (p : t) : t :=
  {| id := id p; texts := texts p; tags := tags p; createdAt := createdAt p;
     updatedAt := updatedAt p; imageId := imageId p;
     imageRemoved := imageRemoved p; isDeleted := v;
     liked := liked p; likedAt := likedAt p; repostOf := repostOf p |}.
End Post.

Module Reply.
(** A reply has no [imageRemoved] field when it is created; editing its
    image adds one. *)
Record t := {
  id : Z;
  postId : Z;
  texts : list TextVariant;
  tags : list jsstring;
  createdAt : Z;
  updatedAt : Z;
  imageId : option jsstring;
  isDeleted : bool;
  imageRemoved : option bool
}.

Definition set_texts (v : list TextVariant) (r : t) : t :=
  {| id := id r; postId := postId r; texts := v; tags := tags r;
     createdAt := createdAt r; updatedAt := updatedAt r;
     imageId := imageId r; isDeleted := isDeleted r;
     imageRemoved := imageRemoved r |}.

Definition set_tags (v : list jsstring) (r : t) : t :=
  {| id := id r; postId := postId r; texts := texts r; tags := v;
     createdAt := createdAt r; updatedAt := updatedAt r;
     imageId := imageId r; isDeleted := isDeleted r;
     imageRemoved := imageRemoved r |}.

Definition set_updatedAt (v : Z) (r : t) : t :=
  {| id := id r; postId := postId r; texts := texts r; tags := tags r;
     createdAt := createdAt r; updatedAt := v;
     imageId := imageId r; isDeleted := isDeleted r;
     imageRemoved := imageRemoved r |}.

Definition set_imageId (v : option jsstring) (r : t) : t :=
  {| id := id r; postId := postId r; texts := texts r; tags := tags r;
     createdAt := createdAt r; updatedAt := updatedAt r;
     imageId := v; isDeleted := isDeleted r;
     imageRemoved := imageRemoved r |}.

Definition set_imageRemoved (v : option bool) (r : t) : t :=
  {| id := id r; postId := postId r; texts := texts r; tags := tags r;
     createdAt := createdAt r; updatedAt := updatedAt r;
     imageId := imageId r; isDeleted := isDeleted r;
     imageRemoved := v |}.
End Reply.

(** A JavaScript object used as a map from image id to payload: its keys
    in insertion order, each at most once. *)
Abbreviation ImageMap := (list (list Z * list Z)) (only parsing).

(** [images[k]] *)
Fixpoint obj_get (k : jsstring) (m : ImageMap) : option jsstring :=
  match m with
  | [] => None
  | (k', v) :: m' => if str_eqb k' k then Some v else obj_get k m'
  end.

(** [images[k] = v]: an existing key keeps its place. *)
Fixpoint obj_set (k v : jsstring) (m : ImageMap) : ImageMap :=
  match m with
  | [] => [(k, v)]
  | (k', v') :: m' =>
      if str_eqb k' k then (k', v) :: m' else (k', v') :: obj_set k v m'
  end.

(** [delete images[k]] *)
Definition obj_delete (k : jsstring) (m : ImageMap) : ImageMap :=
  List.filter (fun kv => negb (str_eqb (fst kv) k)) m.

Record AppData := {
  version : Z;
  posts : list Post.t;
  replies : list Reply.t;
  images : ImageMap;
  lastId : Z
}.

Definition set_posts (v : list Post.t) (d : AppData) : AppData :=
  {| version := version d; posts := v; replies := replies d;
     images := images d; lastId := lastId d |}.

Definition set_replies (v : list Reply.t) (d : AppData) : AppData :=
  {| version := version d; posts := posts d; replies := v;
     images := images d; lastId := lastId d |}.

Definition set_images (v : ImageMap) (d : AppData) : AppData :=
  {| version := version d; posts := posts d; replies := replies d;
     images := v; lastId := lastId d |}.

Definition set_lastId (v : Z) (d : AppData) : AppData :=
  {| version := version d; posts := posts d; replies := replies d;
     images := images d; lastId := v |}.

Definition DATA_VERSION : Z := 1.
Definition STORAGE_LIMIT : Z := 5 * 1024 * 1024.

Definition defaultData : AppData :=
  {| version := DATA_VERSION; posts := []; replies := []; images := [];
     lastId := 0 |}.

(** The global [state] (its [data]) and the [localStorage] slot
    [STORAGE_KEY]. *)
Record State := {
  data : AppData;
  stored : option jsstring
}.

Definition set_data (v : AppData) (s : State) : State :=
  {| data := v; stored := stored s |}.

Definition setItem (v : jsstring) (s : State) : State :=
  {| data := data s; stored := Some v |}.

(* ================================================================= *)
(** ** [JSON.stringify] of the application data *)

Definition digit_unit (d : Z) : Z := 48 + d.

Fixpoint uint_units (u : Decimal.uint) : jsstring :=
  match u with
  | Decimal.Nil => []
  | Decimal.D0 u' => digit_unit 0 :: uint_units u'
  | Decimal.D1 u' => digit_unit 1 :: uint_units u'
  | Decimal.D2 u' => digit_unit 2 :: uint_units u'
  | Decimal.D3 u' => digit_unit 3 :: uint_units u'
  | Decimal.D4 u' => digit_unit 4 :: uint_units u'
  | Decimal.D5 u' => digit_unit 5 :: uint_units u'
  | Decimal.D6 u' => digit_unit 6 :: uint_units u'
  | Decimal.D7 u' => digit_unit 7 :: uint_units u'
  | Decimal.D8 u' => digit_unit 8 :: uint_units u'
  | Decimal.D9 u' => digit_unit 9 :: uint_units u'
  end.

(** An integer in decimal, as [JSON.stringify] prints the ids and
    timestamps of this program. *)
Definition json_number (z : Z) : jsstring :=
  match Z.to_int z with
  | Decimal.Pos u => uint_units u
  | Decimal.Neg u => 45 :: uint_units u
  end.

Definition hex_unit (d : Z) : Z := if d <? 10 then 48 + d else 87 + d.

(** The escape [\uXXXX] of a code unit. *)
Definition unicode_escape (c : Z) : jsstring :=
  [92; 117; hex_unit (Z.land (Z.shiftr c 12) 15);
   hex_unit (Z.land (Z.shiftr c 8) 15);
   hex_unit (Z.land (Z.shiftr c 4) 15); hex_unit (Z.land c 15)].

(** What one code unit becomes inside a JSON string literal.
    [prev_high] tells whether the unit before it is a leading surrogate and
    [next_low] whether the unit after it is a trailing one: a surrogate
    that is half of a pair is copied, a lone one is escaped. *)
Definition quote_unit (prev_high next_low : bool) (c : Z) : jsstring :=
  if c =? 8 then [92; 98]
  else if c =? 9 then [92; 116]
  else if c =? 10 then [92; 110]
  else if c =? 12 then [92; 102]
  else if c =? 13 then [92; 114]
  else if c =? 34 then [92; 34]
  else if c =? 92 then [92; 92]
  else if c <? 32 then unicode_escape c
  else if is_high c then (if next_low then [c] else unicode_escape c)
  else if is_low c then (if prev_high then [c] else unicode_escape c)
  else [c].

Definition head_is_low (s : jsstring) : bool :=
  match s with
  | c :: _ => is_low c
  | [] => false
  end.

Fixpoint quote_units (prev_high : bool) (s : jsstring) : jsstring :=
  match s with
  | [] => []
  | c :: s' =>
      quote_unit prev_high (head_is_low s') c
      ++ quote_units (is_high c && head_is_low s') s'
  end.

Definition json_string (s : jsstring) : jsstring :=
  [34] ++ quote_units false s ++ [34].

Definition json_bool (b : bool) : jsstring :=
  if b then js "true" else js "false".

Definition json_null : jsstring := js "null".

Definition json_option {A} (f : A -> jsstring) (v : option A) : jsstring :=
  match v with
  | Some a => f a
  | None => json_null
  end.

(** The items of an array or the members of an object, comma separated. *)
Fixpoint join_comma (items : list jsstring) : jsstring :=
  match items with
  | [] => []
  | [x] => x
  | x :: rest => x ++ [44] ++ join_comma rest
  end.

Definition json_array (items : list jsstring) : jsstring :=
  [91] ++ join_comma items ++ [93].

Definition json_member (kv : jsstring * jsstring) : jsstring :=
  json_string (fst kv) ++ [58] ++ snd kv.

Definition json_object (members : list (jsstring * jsstring)) : jsstring :=
  [123] ++ join_comma (map json_member members) ++ [125].

(** A member whose value may be [undefined] is left out. *)
Definition optional_member {A} (k : string) (f : A -> jsstring) (v : option A)
  : list (jsstring * jsstring) :=
  match v with
  | Some a => [(js k, f a)]
  | None => []
  end.

Definition json_text (t : TextVariant) : jsstring :=
  json_object
    ([(js "content", json_string (content t));
      (js "language", json_string (language t))]
     ++ optional_member "pronunciation" json_string (pronunciation t)).

Definition json_post (p : Post.t) : jsstring :=
  json_object
    [(js "id", json_number (Post.id p));
     (js "texts", json_array (map json_text (Post.texts p)));
     (js "tags", json_array (map json_string (Post.tags p)));
     (js "createdAt", json_number (Post.createdAt p));
     (js "updatedAt", json_number (Post.updatedAt p));
     (js "imageId", json_option json_string (Post.imageId p));
     (js "imageRemoved", json_bool (Post.imageRemoved p));
     (js "isDeleted", json_bool (Post.isDeleted p));
     (js "liked", json_bool (Post.liked p));
     (js "likedAt", json_option json_number (Post.likedAt p));
     (js "repostOf", json_option json_number (Post.repostOf p))].

Definition json_reply (r : Reply.t) : jsstring :=
  json_object
    ([(js "id", json_number (Reply.id r));
      (js "postId", json_number (Reply.postId r));
      (js "texts", json_array (map json_text (Reply.texts r)));
      (js "tags", json_array (map json_string (Reply.tags r)));
      (js "createdAt", json_number (Reply.createdAt r));
      (js "updatedAt", json_number (Reply.updatedAt r));
      (js "imageId", json_option json_string (Reply.imageId r));
      (js "isDeleted", json_bool (Reply.isDeleted r))]
     ++ optional_member "imageRemoved" json_bool (Reply.imageRemoved r)).

Definition json_images (m : ImageMap) : jsstring :=
  json_object (map (fun kv => (fst kv, json_string (snd kv))) m).

(** [JSON.stringify(state.data)] *)
Definition stringify (d : AppData) : jsstring :=
  json_object
    [(js "version", json_number (version d));
     (js "posts", json_array (map json_post (posts d)));
     (js "replies", json_array (map json_reply (replies d)));
     (js "images", json_images (images d));
     (js "lastId", json_number (lastId d))].

(* ================================================================= *)
(** ** Arrays of objects *)

(** [arr.sort(cmp)]: the sort of the language is stable; [x] goes in
    front of the first element it does not have to follow. *)
Fixpoint sort_insert {A} (cmp : A -> A -> Z) (x : A) (l : list A) : list A :=
  match l with
  | [] => [x]
  | y :: l' => if cmp x y <=? 0 then x :: l else y :: sort_insert cmp x l'
  end.

Definition js_sort {A} (cmp : A -> A -> Z) (l : list A) : list A :=
  fold_right (sort_insert cmp) [] l.

(** The objects of an array together with their identity: the object at
    index [i] is mutated through the reference [i]. *)
Definition refs {A} (l : list A) : list (nat * A) :=
  combine (seq 0 (length l)) l.

(** [arr.findIndex(f)]; [arr.find] returns the object at that index. *)
Fixpoint findIndex {A} (f : A -> bool) (l : list A) : option nat :=
  match l with
  | [] => None
  | x :: l' => if f x then Some O else option_map S (findIndex f l')
  end.

(* ================================================================= *)
(** ** Images and the storage limit *)

(** [removeImageIfUnused(imageId)] *)
Definition removeImageIfUnused (imageId : option jsstring) (d : AppData)
  : AppData :=
  match imageId with
  | Some (c :: k) =>
      let used :=
        existsb (fun p => opt_str_eqb (Post.imageId p) imageId) (posts d)
        || existsb (fun r => opt_str_eqb (Reply.imageId r) imageId) (replies d) in
      if negb used then set_images (obj_delete (c :: k) (images d)) d else d
  | _ => d
  end.

(** [ensureImageId(dataUrl)]; [fresh] is the id the clock and the random
    generator would mint. *)
Definition ensureImageId (dataUrl fresh : jsstring) (d : AppData)
  : jsstring * AppData :=
  match List.find (fun kv => str_eqb (snd kv) dataUrl) (images d) with
  | Some kv => (fst kv, d)
  | None => (fresh, set_images (obj_set fresh dataUrl (images d)) d)
  end.

(** [nextId()]. The sum is the sum of integers, which is what the
    addition of JS numbers gives as long as the counter is a safe integer
    (see [counter_exact]). *)
Definition nextId (d : AppData) : Z * AppData :=
  (lastId d + 1, set_lastId (lastId d + 1) d).

(** [Number.MAX_SAFE_INTEGER]: up to this magnitude a JS number holds an
    integer exactly, and adding 1 to it is exact. *)
Definition MAX_SAFE_INTEGER : Z := 2 ^ 53 - 1.

(** The counter is a safe integer, and so is the counter before each of
    [n] further calls of [nextId]: every one of these sums is exact. *)
Definition counter_exact (d : AppData) (n : nat) : Prop :=
  (- MAX_SAFE_INTEGER) <= lastId d
  /\ lastId d + Z.of_nat n <= MAX_SAFE_INTEGER + 1.

(** The candidates of one pass of the loop, oldest first:
    [[...posts].filter((p) => p.imageId).sort((a, b) => a.createdAt - b.createdAt)] *)
Definition candidates (d : AppData) : list (nat * Post.t) :=
  js_sort (fun a b => Post.createdAt (snd a) - Post.createdAt (snd b))
    (List.filter (fun a => truthy (Post.imageId (snd a))) (refs (posts d))).

(** The body of the [while] loop of [enforceStorageLimit]: [None] is the
    [break]. *)
Definition evict_body (d : AppData) : option AppData :=
  match candidates d with
  | [] => None
  | (i, target) :: _ =>
      let d1 := removeImageIfUnused (Post.imageId target) d in
      let d2 := set_posts (alter (Post.set_imageId None) i (posts d1)) d1 in
      let d3 := set_posts (alter (Post.set_imageRemoved true) i (posts d2)) d2 in
      Some d3
  end.

(** One turn of [while (serialized.length > STORAGE_LIMIT) { ... }]:
    [None] when the loop is left, by its condition or by [break]. *)
Definition evict_step (d : AppData) : option AppData :=
  if str_length (stringify d) >? STORAGE_LIMIT then evict_body d else None.

(** The loop itself. Each turn takes the image of one post and a post is
    never a candidate twice, so [fuel] turns are enough when [fuel]
    exceeds the number of posts. *)
Fixpoint evict_loop (fuel : nat) (d : AppData) : AppData :=
  match fuel with
  | O => d
  | S fuel' =>
      match evict_step d with
      | None => d
      | Some d' => evict_loop fuel' d'
      end
  end.

(** [enforceStorageLimit()] *)
Definition enforceStorageLimit (s : State) : State :=
  let d := evict_loop (S (length (posts (data s)))) (data s) in
  setItem (stringify d) (set_data d s).

(** [persistData()] *)
Definition persistData (s : State) : State :=
  enforceStorageLimit (setItem (stringify (data s)) s).

(** A terminating run of the [while] loop, turn by turn: from [d] the
    loop is left after [n] turns with the data [d']. *)
Inductive loop_run : AppData -> nat -> AppData -> Prop :=
| loop_leave d : evict_step d = None -> loop_run d O d
| loop_turn d d1 n d' :
    evict_step d = Some d1 -> loop_run d1 n d' -> loop_run d (S n) d'.

(** The number of posts that still reference an image. *)
Definition image_count (d : AppData) : nat :=
  length (List.filter (fun p => match Post.imageId p with Some _ => true | None => false end)
            (posts d)).

(* ================================================================= *)
(** ** Deleting a post *)

(** The placeholder [{ content: '', language: 'ja' }]. *)
Definition deleted_text : TextVariant :=
  {| content := []; language := js "ja"; pronunciation := None |}.

(** [deletePost(id)]; [confirmed] is the answer of [window.confirm]. *)
Definition deletePost (id : Z) (confirmed : bool) (s : State) : State :=
  let d := data s in
  match findIndex (fun p => Post.id p =? id) (posts d) with
  | None => s
  | Some i =>
      if negb confirmed then s
      else
        let hasReplies := existsb (fun r => Reply.postId r =? id) (replies d) in
        let d' :=
          if hasReplies then
            let d1 := set_posts (alter (Post.set_isDeleted true) i (posts d)) d in
            set_posts (alter (Post.set_texts [deleted_text]) i (posts d1)) d1
          else
            let imageId := match posts d !! i with
                           | Some post => Post.imageId post
                           | None => None
                           end in
            let d1 := removeImageIfUnused imageId d in
            set_posts (List.filter (fun p => negb (Post.id p =? id)) (posts d1)) d1 in
        persistData (set_data d' s)
  end.

(* ================================================================= *)
(** ** The post form and the search *)

(** What the form was opened on: a post or a reply of the state, through
    its reference, or the detached copy the repost button makes. *)
Inductive Target :=
| PostRef (i : nat)
| ReplyRef (i : nat)
| Duplicate (p : Post.t).

Inductive Mode := CreateMode | EditMode | ReplyMode.

(** The three inputs of one text block of the form. *)
Record TextBlock := {
  text_area : jsstring;
  language_select : jsstring;
  pronunciation_input : jsstring
}.

(** The form as the user submits it. [originalImageId] was read when the
    form was built; [imageDataUrl] and [removeImage] are set by the file
    input and the remove button. [parentId] is read in reply mode only,
    where the reply button passes the id of its post. *)
Record Form := {
  mode : Mode;
  targetPost : option Target;
  parentId : Z;
  originalImageId : option jsstring;
  text_blocks : list TextBlock;
  imageDataUrl : option jsstring;
  removeImage : bool
}.

(** What the handler reads from outside the state: two readings of the
    clock and the image id that would be minted. *)
Record Env := {
  now1 : Z;
  now2 : Z;
  fresh_image_id : jsstring
}.

Inductive SubmitResult := Rejected | Submitted.

Definition target_imageId (d : AppData) (t : Target) : option jsstring :=
  match t with
  | PostRef i => match posts d !! i with
                 | Some p => Post.imageId p
                 | None => None
                 end
  | ReplyRef i => match replies d !! i with
                  | Some r => Reply.imageId r
                  | None => None
                  end
  | Duplicate p => Post.imageId p
  end.

Definition target_id (d : AppData) (t : Target) : option Z :=
  match t with
  | PostRef i => option_map Post.id (posts d !! i)
  | ReplyRef i => option_map Reply.id (replies d !! i)
  | Duplicate p => Some (Post.id p)
  end.

(** An assignment to fields of the target object; a detached copy is not
    part of the state. *)
Definition mutate_target (t : Target) (fp : Post.t -> Post.t)
    (fr : Reply.t -> Reply.t) (d : AppData) : AppData :=
  match t with
  | PostRef i => set_posts (alter fp i (posts d)) d
  | ReplyRef i => set_replies (alter fr i (replies d)) d
  | Duplicate _ => d
  end.

Definition target_texts (d : AppData) (t : Target) : list TextVariant :=
  match t with
  | PostRef i => match posts d !! i with
                 | Some p => Post.texts p
                 | None => []
                 end
  | ReplyRef i => match replies d !! i with
                  | Some r => Reply.texts r
                  | None => []
                  end
  | Duplicate p => Post.texts p
  end.

(** The values of [langOptions], in the order of the [<option>]s. *)
Definition langOptions : list jsstring :=
  [js "ja"; js "en-US"; js "ko-KR"; js "zh-TW"].

(** What [textarea.value] reads after [textarea.value = s]: the value with
    its newlines normalized, every CR LF pair and every other CR being
    one LF. *)
Fixpoint normalize_newlines (s : jsstring) : jsstring :=
  match s with
  | [] => []
  | c :: s' =>
      if c =? 13 then
        10 :: match s' with
              | c' :: s'' =>
                  if c' =? 10 then normalize_newlines s'' else normalize_newlines s'
              | [] => []
              end
      else c :: normalize_newlines s'
  end.

(** What the value of an [<input type="text">] reads after
    [input.value = s]: the value without its LF and CR. *)
Definition strip_newlines (s : jsstring) : jsstring :=
  List.filter (fun c => negb ((c =? 10) || (c =? 13))) s.

(** What [select.value] reads once the options are appended: the option
    equal to [lang] was marked [selected]; when there is none the first
    option is the selected one. *)
Definition select_value (lang : jsstring) : jsstring :=
  if existsb (str_eqb lang) langOptions then lang
  else match langOptions with
       | first :: _ => first
       | [] => []
       end.

(** [addTextBlock(t.content, t.language, t.pronunciation || '')]: the
    controls [createTextBlockInput] builds, as they read afterwards. *)
Definition block_of_text (t : TextVariant) : TextBlock :=
  {| text_area := normalize_newlines (content t);
     language_select := select_value (language t);
     pronunciation_input := strip_newlines (default [] (pronunciation t)) |}.

(** The values the controls of a text block can hold: no CR in the text
    area, one of the options in the select, neither LF nor CR in the
    pronunciation input. *)
Definition control_values (b : TextBlock) : bool :=
  forallb (fun c => negb (c =? 13)) (text_area b)
  && existsb (str_eqb (language_select b)) langOptions
  && forallb (fun c => negb ((c =? 10) || (c =? 13))) (pronunciation_input b).

(** The form [buildPostForm] opens: one block per text of the target, or
    one empty block; no new image chosen yet. *)
Definition buildPostForm (m : Mode) (t : option Target) (parent : Z)
    (d : AppData) : Form :=
  {| mode := m; targetPost := t; parentId := parent;
     originalImageId :=
       match t with
       | Some t' => or_null (target_imageId d t')
       | None => None
       end;
     text_blocks :=
       match t with
       | Some t' => map block_of_text (target_texts d t')
       | None => [block_of_text {| content := []; language := js "ja";
                                   pronunciation := Some [] |}]
       end;
     imageDataUrl := None; removeImage := false |}.

Section Operations.
Context {U : Unicode}.

(** [extractTags(texts)]: one regex object and one set serve all the
    texts. *)
Definition extractTags (texts : list TextVariant) : list jsstring :=
  fst (fold_left
         (fun acc t =>
            exec_loop (S (length (content t))) (content t) (snd acc) (fst acc))
         texts ([], O)).

Definition read_block (b : TextBlock) : TextVariant :=
  {| content := trim (text_area b);
     language := language_select b;
     pronunciation := Some (trim (pronunciation_input b)) |}.

(** The image the submitted entity will reference: a newly chosen file is
    stored (or found) by [ensureImageId], the remove button clears the
    reference, otherwise the target's image is kept. *)
Definition chosen_image (f : Form) (e : Env) (d : AppData)
  : option jsstring * AppData :=
  let imageId :=
    match targetPost f with
    | Some t => target_imageId d t
    | None => None
    end in
  match imageDataUrl f with
  | Some (c :: url) =>
      let (i, d') := ensureImageId (c :: url) (fresh_image_id e) d in (Some i, d')
  | _ => if removeImage f then (None, d) else (imageId, d)
  end.

(** The branch [mode === 'reply']. *)
Definition push_reply (f : Form) (e : Env) (textBlocks : list TextVariant)
    (tags : list jsstring) (imageId : option jsstring) (d : AppData) : AppData :=
  let (i, d) := nextId d in
  let reply :=
    {| Reply.id := i; Reply.postId := parentId f;
       Reply.texts := textBlocks; Reply.tags := tags;
       Reply.createdAt := now1 e; Reply.updatedAt := now2 e;
       Reply.imageId := or_null imageId; Reply.isDeleted := false;
       Reply.imageRemoved := None |} in
  set_replies (replies d ++ [reply]) d.

(** The branch [mode === 'edit' && targetPost]. *)
Definition edit_target (f : Form) (e : Env) (t : Target)
    (textBlocks : list TextVariant) (tags : list jsstring)
    (imageId : option jsstring) (d : AppData) : AppData :=
  let d := mutate_target t (Post.set_texts textBlocks)
             (Reply.set_texts textBlocks) d in
  let d := mutate_target t (Post.set_tags tags) (Reply.set_tags tags) d in
  let d := mutate_target t (Post.set_updatedAt (now1 e))
             (Reply.set_updatedAt (now1 e)) d in
  match imageDataUrl f with
  | Some _ =>
      let d := mutate_target t (Post.set_imageId imageId)
                 (Reply.set_imageId imageId) d in
      let d := mutate_target t (Post.set_imageRemoved false)
                 (Reply.set_imageRemoved (Some false)) d in
      if truthy (originalImageId f)
         && negb (opt_str_eqb (originalImageId f) imageId)
      then removeImageIfUnused (originalImageId f) d
      else d
  | None =>
      if removeImage f then
        let d := removeImageIfUnused (originalImageId f) d in
        let d := mutate_target t (Post.set_imageId None)
                   (Reply.set_imageId None) d in
        mutate_target t (Post.set_imageRemoved false)
          (Reply.set_imageRemoved (Some false)) d
      else d
  end.

(** The last branch: a new post (or a repost of the target). *)
Definition push_post (f : Form) (e : Env) (textBlocks : list TextVariant)
    (tags : list jsstring) (imageId : option jsstring) (d : AppData) : AppData :=
  let (i, d) := nextId d in
  let post :=
    {| Post.id := i; Post.texts := textBlocks; Post.tags := tags;
       Post.createdAt := now1 e; Post.updatedAt := now2 e;
       Post.imageId := or_null imageId; Post.imageRemoved := false;
       Post.isDeleted := false; Post.liked := false; Post.likedAt := None;
       Post.repostOf := match targetPost f with
                        | Some t => target_id d t
                        | None => None
                        end |} in
  set_posts (posts d ++ [post]) d.

(** The click handler of the submit button. *)
Definition submit (f : Form) (e : Env) (s : State) : SubmitResult * State :=
  let textBlocks := map read_block (text_blocks f) in
  let hasContent :=
    existsb (fun t => (0 <? str_length (content t))) textBlocks in
  if negb hasContent then (Rejected, s)
  else
    let tags := extractTags textBlocks in
    let (imageId, d) := chosen_image f e (data s) in
    let d :=
      match mode f, targetPost f with
      | ReplyMode, _ => push_reply f e textBlocks tags imageId d
      | EditMode, Some t => edit_target f e t textBlocks tags imageId d
      | _, _ => push_post f e textBlocks tags imageId d
      end in
    (Submitted, persistData (set_data d s)).

(** [str.split(/\s+/)]: the pieces between the runs of white space, the
    empty pieces at either end included. *)
Fixpoint split_from (piece : jsstring) (in_run : bool) (s : jsstring)
  : list jsstring :=
  match s with
  | [] => [piece]
  | c :: s' =>
      if is_space c then
        if in_run then split_from [] true s'
        else piece :: split_from [] true s'
      else split_from (piece ++ [c]) false s'
  end.

Definition split_space (s : jsstring) : list jsstring := split_from [] false s.

(** [query.split(/\s+/).filter(Boolean)] *)
Definition query_terms (query : jsstring) : list jsstring :=
  List.filter (fun t => match t with [] => false | _ => true end)
    (split_space query).

(** The body of [terms.forEach]: [tagFilter] is overwritten, [textTerms]
    grows. *)
Definition classify_term (acc : option jsstring * list jsstring) (t : jsstring)
  : option jsstring * list jsstring :=
  if startsWith [35] t then (Some (drop 1 t), snd acc)
  else (fst acc, snd acc ++ [t]).

(** [runSearch()]: the posts it renders, in order, for the value of the
    search input. *)
Definition runSearch (input : jsstring) (s : State) : list Post.t :=
  let query := trim input in
  let terms := query_terms query in
  let '(tagFilter, textTerms) := fold_left classify_term terms (None, []) in
  let results := List.filter (fun p => negb (Post.isDeleted p)) (posts (data s)) in
  let results :=
    if truthy tagFilter then
      let tagLower := toLowerCase (default [] tagFilter) in
      List.filter
        (fun p => existsb (fun tag => str_eqb (toLowerCase tag) tagLower) (Post.tags p))
        results
    else results in
  let results :=
    match textTerms with
    | [] => results
    | _ =>
        let lowerTerms := map toLowerCase textTerms in
        List.filter
          (fun p =>
             forallb
               (fun term =>
                  existsb (fun t => includes term (toLowerCase (content t)))
                    (Post.texts p))
               lowerTerms)
          results
    end in
  js_sort (fun a b => Post.createdAt b - Post.createdAt a) results.

End Operations.


(* ================================================================= *)
(** ** Notions used to state the properties *)

(** The comparator [(a, b) => key(a) - key(b)]. *)
Definition by_key {A} (key : A -> Z) (a b : A) : Z := key a - key b.

(** The comparator of the search results. *)
Definition newest_first (a b : Post.t) : Z := Post.createdAt b - Post.createdAt a.

(** What a turn of the eviction loop does to the post it selects. *)
Definition strip (p : Post.t) : Post.t :=
  Post.set_imageRemoved true (Post.set_imageId None p).

(** The post a turn selects: a reference [i] to a post with an image such
    that no post with an image is older, and none of the same age stands
    before it. *)
Definition oldest_with_image (ps : list Post.t) (i : nat) (target : Post.t) : Prop :=
  ps !! i = Some target
  /\ truthy (Post.imageId target) = true
  /\ forall j p, ps !! j = Some p -> truthy (Post.imageId p) = true ->
       Post.createdAt target <= Post.createdAt p
       /\ (Post.createdAt p = Post.createdAt target -> (i <= j)%nat).

(** The same selection read over the posts whose [imageId] is not null. *)
Definition oldest_non_null (ps : list Post.t) (i : nat) (target : Post.t) : Prop :=
  ps !! i = Some target
  /\ Post.imageId target <> None
  /\ forall j p, ps !! j = Some p -> Post.imageId p <> None ->
       Post.createdAt target <= Post.createdAt p
       /\ (Post.createdAt p = Post.createdAt target -> (i <= j)%nat).

Definition has_image (p : Post.t) : bool :=
  match Post.imageId p with Some _ => true | None => false end.

(** The payloads of the image map, in code units. *)
Definition payload_size (m : ImageMap) : Z :=
  fold_right (fun kv acc => str_length (snd kv) + acc) 0 m.

(** A post with its image fields blanked: what eviction never changes. *)
Definition without_image (p : Post.t) : Post.t :=
  Post.set_imageRemoved false (Post.set_imageId None p).

(** What a persist leaves alone. *)
Definition same_but_post_images (d d' : AppData) : Prop :=
  version d' = version d /\ replies d' = replies d /\ lastId d' = lastId d
  /\ map without_image (posts d') = map without_image (posts d).

(** The first occurrence of each element, in order. *)
Fixpoint first_occurrences (l : list jsstring) : list jsstring :=
  match l with
  | [] => []
  | x :: r => x :: List.filter (fun y => negb (str_eqb x y)) (first_occurrences r)
  end.

Definition add_all (l acc : list jsstring) : list jsstring :=
  fold_left (fun a x => set_add x a) l acc.

Definition fresh_for (acc : list jsstring) (y : jsstring) : bool :=
  negb (existsb (str_eqb y) acc).

(** The maximal runs of a string that contain no white space. *)
Fixpoint words_from (word : jsstring) (s : jsstring) : list jsstring :=
  match s with
  | [] => match word with [] => [] | _ => [word] end
  | c :: s' =>
      if is_space c then
        match word with
        | [] => words_from [] s'
        | _ => word :: words_from [] s'
        end
      else words_from (word ++ [c]) s'
  end.

Definition words (s : jsstring) : list jsstring := words_from [] s.

Definition is_hash_term (t : jsstring) : bool :=
  match t with
  | c :: _ => c =? 35
  | [] => false
  end.

(** The tag filter as the specification words it: the last term that
    starts with [#], without the [#]. *)
Definition stated_tag_filter (terms : list jsstring) : option jsstring :=
  option_map (drop 1) (last (List.filter is_hash_term terms)).

(** The tag filter the code applies: the same, but none for a bare [#]. *)
Definition effective_tag_filter (terms : list jsstring) : option jsstring :=
  match stated_tag_filter terms with
  | Some [] => None
  | f => f
  end.

Definition plain_terms (terms : list jsstring) : list jsstring :=
  List.filter (fun t => negb (is_hash_term t)) terms.

Section Specification.
Context {U : Unicode}.

(** Every [#] of [s] that is followed by class code points, with the
    longest run of them. *)
Fixpoint tokens (s : jsstring) : list jsstring :=
  match s with
  | [] => []
  | c :: t =>
      if c =? 35 then
        match fst (class_run t) with
        | [] => tokens t
        | cap => cap :: tokens t
        end
      else tokens t
  end.

(** A word of class code points: each unit passed the class test on its
    own or as one half of a surrogate pair. *)
Inductive class_word : jsstring -> Prop :=
| cw_nil : class_word []
| cw_unit c w : tag_char c = true -> class_word w -> class_word (c :: w)
| cw_pair h l w :
    is_high h = true -> is_low l = true -> tag_char (codepoint h l) = true ->
    class_word w -> class_word (h :: l :: w).

Definition same_ignoring_case (a b : jsstring) : bool :=
  str_eqb (toLowerCase b) (toLowerCase a).

Definition contains_ignoring_case (term s : jsstring) : bool :=
  includes (toLowerCase term) (toLowerCase s).

(** Whether the search returns a post, for a tag filter and the other
    terms. *)
Definition search_hit (tagFilter : option jsstring) (terms : list jsstring)
    (p : Post.t) : bool :=
  negb (Post.isDeleted p)
  && match tagFilter with
     | Some tag => existsb (same_ignoring_case tag) (Post.tags p)
     | None => true
     end
  && forallb
       (fun term =>
          existsb (fun t => contains_ignoring_case term (content t)) (Post.texts p))
       terms.

(** The search as the specification words it. *)
Definition search_as_stated (input : jsstring) (s : State) : list Post.t :=
  js_sort newest_first
    (List.filter
       (search_hit (stated_tag_filter (words input)) (plain_terms (words input)))
       (posts (data s))).

(** The search as the code has it. *)
Definition search_as_coded (input : jsstring) (s : State) : list Post.t :=
  js_sort newest_first
    (List.filter
       (search_hit (effective_tag_filter (words input)) (plain_terms (words input)))
       (posts (data s))).

(** What an accepted submission has changed once it is persisted. *)
Definition submitted (f : Form) (e : Env) (s s' : State) : Prop :=
  let textBlocks := map read_block (text_blocks f) in
  let tags := extractTags textBlocks in
  match mode f, targetPost f with
  | ReplyMode, _ =>
      lastId (data s') = lastId (data s) + 1
      /\ exists r, replies (data s') = replies (data s) ++ [r]
           /\ Reply.id r = lastId (data s) + 1
           /\ Reply.postId r = parentId f
           /\ Reply.texts r = textBlocks /\ Reply.tags r = tags
  | EditMode, Some (PostRef i) =>
      forall p, posts (data s) !! i = Some p ->
        exists p', posts (data s') !! i = Some p'
          /\ Post.texts p' = textBlocks /\ Post.tags p' = tags
          /\ Post.updatedAt p' = now1 e
  | EditMode, Some (ReplyRef i) =>
      forall r, replies (data s) !! i = Some r ->
        exists r', replies (data s') !! i = Some r'
          /\ Reply.texts r' = textBlocks /\ Reply.tags r' = tags
          /\ Reply.updatedAt r' = now1 e
  | EditMode, Some (Duplicate _) => True
  | _, _ =>
      lastId (data s') = lastId (data s) + 1
      /\ exists p,
           map without_image (posts (data s'))
           = map without_image (posts (data s)) ++ [without_image p]
           /\ Post.id p = lastId (data s) + 1
           /\ Post.texts p = textBlocks /\ Post.tags p = tags
  end.

End Specification.

(* ================================================================= *)
(** ** Example states *)

(** A payload of [n] code units. *)
Definition payload (n : Z) : jsstring := replicate (Z.to_nat n) 65.

Definition plain_text (s : string) : TextVariant :=
  {| content := js s; language := js "ja"; pronunciation := Some [] |}.

Definition image_post (i created : Z) (text : string) (image : option jsstring)
  : Post.t :=
  {| Post.id := i; Post.texts := [plain_text text]; Post.tags := [];
     Post.createdAt := created; Post.updatedAt := created;
     Post.imageId := image; Post.imageRemoved := false;
     Post.isDeleted := false; Post.liked := false; Post.likedAt := None;
     Post.repostOf := None |}.

Definition imageX : jsstring := js "img-1700000000000-k3x9".
Definition imageY : jsstring := js "img-1700000060000-p0q2".
Definition postA : Post.t := image_post 1 1700000000000 "A" (Some imageX).
Definition postB : Post.t := image_post 2 1700000060000 "B" (Some imageY).

(** Post A with image X and the younger post B with image Y. *)
Definition two_images (P Q : jsstring) : AppData :=
  {| version := DATA_VERSION; posts := [postA; postB]; replies := [];
     images := [(imageX, P); (imageY, Q)]; lastId := 2 |}.

Definition two_images_state (P Q : jsstring) : State :=
  {| data := two_images P Q; stored := None |}.

(** The scenario of the specification: 2 MB and 4 MB. *)
Definition scenario : State :=
  two_images_state (payload (2 * 1024 * 1024)) (payload (4 * 1024 * 1024)).

Definition one_image (P : jsstring) : AppData :=
  {| version := DATA_VERSION; posts := [postA]; replies := [];
     images := [(imageX, P)]; lastId := 1 |}.

Definition one_image_state (P : jsstring) : State :=
  {| data := one_image P; stored := None |}.

Definition lone_image : State := one_image_state (payload (6 * 1024 * 1024)).

(** A post whose image is stored under the empty id. *)
Definition postE : Post.t := image_post 1 1600000000000 "E" (Some []).

Definition empty_id (P : jsstring) : AppData :=
  {| version := DATA_VERSION; posts := [postE]; replies := [];
     images := [([], P)]; lastId := 1 |}.

Definition empty_id_state_of (P : jsstring) : State :=
  {| data := empty_id P; stored := None |}.

Definition empty_id_state : State := empty_id_state_of (payload (6 * 1024 * 1024)).

Definition empty_id_first (P Q : jsstring) : AppData :=
  {| version := DATA_VERSION; posts := [postE; postB]; replies := [];
     images := [([], P); (imageY, Q)]; lastId := 2 |}.

Definition empty_id_first_data : AppData :=
  empty_id_first (payload (2 * 1024 * 1024)) (payload (4 * 1024 * 1024)).

(** One post with a small image and no reply. *)
Definition gallery : State :=
  {| data := {| version := DATA_VERSION;
                posts := [image_post 1 1700000000000 "sunset" (Some imageX)];
                replies := [];
                images := [(imageX, js "data:image/png;base64,iVBORw0KGgo=")];
                lastId := 1 |};
     stored := None |}.

Definition tagged_post : Post.t :=
  {| Post.id := 1; Post.texts := [plain_text "hello #foo"];
     Post.tags := [js "foo"];
     Post.createdAt := 1700000000000; Post.updatedAt := 1700000000000;
     Post.imageId := None; Post.imageRemoved := false;
     Post.isDeleted := false; Post.liked := false; Post.likedAt := None;
     Post.repostOf := None |}.

Definition a_reply : Reply.t :=
  {| Reply.id := 2; Reply.postId := 1; Reply.texts := [plain_text "nice"];
     Reply.tags := []; Reply.createdAt := 1700000001000;
     Reply.updatedAt := 1700000001000; Reply.imageId := None;
     Reply.isDeleted := false; Reply.imageRemoved := None |}.

(** A tagged post and a reply to it. *)
Definition thread : State :=
  {| data := {| version := DATA_VERSION; posts := [tagged_post];
                replies := [a_reply]; images := []; lastId := 2 |};
     stored := None |}.

(** One post without tags. *)
Definition untagged : State :=
  {| data := {| version := DATA_VERSION;
                posts := [image_post 1 1700000000000 "plain note" None];
                replies := []; images := []; lastId := 1 |};
     stored := None |}.


(* ================================================================= *)
(** ** Further operations of [script.js] *)

Definition with_liked (v : bool) (p : Post.t) : Post.t :=
  {| Post.id := Post.id p; Post.texts := Post.texts p; Post.tags := Post.tags p;
     Post.createdAt := Post.createdAt p; Post.updatedAt := Post.updatedAt p;
     Post.imageId := Post.imageId p; Post.imageRemoved := Post.imageRemoved p;
     Post.isDeleted := Post.isDeleted p; Post.liked := v;
     Post.likedAt := Post.likedAt p; Post.repostOf := Post.repostOf p |}.

Definition with_likedAt (v : option Z) (p : Post.t) : Post.t :=
  {| Post.id := Post.id p; Post.texts := Post.texts p; Post.tags := Post.tags p;
     Post.createdAt := Post.createdAt p; Post.updatedAt := Post.updatedAt p;
     Post.imageId := Post.imageId p; Post.imageRemoved := Post.imageRemoved p;
     Post.isDeleted := Post.isDeleted p; Post.liked := Post.liked p;
     Post.likedAt := v; Post.repostOf := Post.repostOf p |}.

(** [deleteReply(id)]; [confirmed] is the answer of [window.confirm]. *)
Definition deleteReply (id : Z) (confirmed : bool) (s : State) : State :=
  let d := data s in
  match findIndex (fun r => Reply.id r =? id) (replies d) with
  | None => s
  | Some i =>
      if negb confirmed then s
      else
        let imageId := match replies d !! i with
                       | Some target => Reply.imageId target
                       | None => None
                       end in
        let d1 := removeImageIfUnused imageId d in
        let d2 := set_replies
                    (List.filter (fun r => negb (Reply.id r =? id)) (replies d1)) d1 in
        persistData (set_data d2 s)
  end.

(** [post.likedAt = post.liked ? Date.now() : null] *)
Definition stamp_like (now : Z) (p : Post.t) : Post.t :=
  with_likedAt (if Post.liked p then Some now else None) p.

(** [toggleLike(id)]; [now] is the reading of the clock. *)
Definition toggleLike (id : Z) (now : Z) (s : State) : State :=
  let d := data s in
  match findIndex (fun p => Post.id p =? id) (posts d) with
  | None => s
  | Some i =>
      match posts d !! i with
      | None => s
      | Some post =>
          if Post.isDeleted post then s
          else
            let d1 := set_posts (alter (with_liked (negb (Post.liked post))) i (posts d)) d in
            let d2 := set_posts (alter (stamp_like now) i (posts d1)) d1 in
            persistData (set_data d2 s)
      end
  end.

(* ----------------------------------------------------------------- *)
(** *** What the views list *)

(** [renderTimeline]: the posts in the order of their cards. *)
Definition renderTimeline (s : State) : list Post.t :=
  js_sort newest_first (posts (data s)).

(** [b.likedAt || 0] *)
Definition likedAt_or_zero (p : Post.t) : Z := default 0 (Post.likedAt p).

(** [renderLikes]: the liked posts, the latest like first. *)
Definition renderLikes (s : State) : list Post.t :=
  js_sort (fun a b => likedAt_or_zero b - likedAt_or_zero a)
    (List.filter Post.liked (posts (data s))).

(** The replies [renderPostCard] lists under a post, oldest first. *)
Definition card_replies (post : Post.t) (s : State) : list Reply.t :=
  js_sort (fun a b => Reply.createdAt a - Reply.createdAt b)
    (List.filter (fun r => Reply.postId r =? Post.id post) (replies (data s))).

Section Views.
(** Reading [images[k]] also finds what the prototype of the object
    holds under that name; [inherited k] tells whether it does. *)
Variable inherited : jsstring -> bool.

(** [state.data.images[k]] as a condition. *)
Definition has_payload (k : jsstring) (m : ImageMap) : bool :=
  match obj_get k m with
  | Some v => truthy (Some v)
  | None => inherited k
  end.

(** [p.imageId && state.data.images[p.imageId]] *)
Definition image_listed (d : AppData) (p : Post.t) : bool :=
  truthy (Post.imageId p)
  && match Post.imageId p with
     | Some k => has_payload k (images d)
     | None => false
     end.

(** [renderImages]: the posts of the image tab, newest first. *)
Definition renderImages (s : State) : list Post.t :=
  js_sort newest_first (List.filter (image_listed (data s)) (posts (data s))).

End Views.

(* ----------------------------------------------------------------- *)
(** *** Working on the open form *)







(* ----------------------------------------------------------------- *)
(** *** Identifiers *)

Definition all_ids (d : AppData) : list Z :=
  map Post.id (posts d) ++ map Reply.id (replies d).

(** Every id was handed out by [nextId], once. *)
Definition ids_wf (d : AppData) : Prop :=
  List.NoDup (all_ids d) /\ Forall (fun i => i <= lastId d) (all_ids d).

(** Some post or reply carries the image id [k]. *)
Definition referenced (k : jsstring) (d : AppData) : Prop :=
  (exists p, In p (posts d) /\ Post.imageId p = Some k)
  \/ (exists r, In r (replies d) /\ Reply.imageId r = Some k).

(** The slot holds the serialization of the data. *)
Definition in_sync (s : State) : Prop := stored s = Some (stringify (data s)).

(** Each post is as it was or has lost its image to the eviction. *)
Definition kept_or_stripped (ps ps' : list Post.t) : Prop :=
  Forall2 (fun p p' => p' = p \/ (truthy (Post.imageId p) = true /\ p' = strip p))
    ps ps'.

(** [p] comes before [q] in the order of the eviction: older, or as old
    and earlier in the collection. *)
Definition evicted_before (i : nat) (p : Post.t) (j : nat) (q : Post.t) : Prop :=
  Post.createdAt p < Post.createdAt q
  \/ (Post.createdAt p = Post.createdAt q /\ (i < j)%nat).

Section Actions.
Context {U : Unicode}.

(** The actions of the user that change the data. *)
Inductive Action :=
| Submit (f : Form) (e : Env)
| DeletePost (id : Z) (confirmed : bool)
| DeleteReply (id : Z) (confirmed : bool)
| ToggleLike (id : Z) (now : Z).

Definition act (a : Action) (s : State) : State :=
  match a with
  | Submit f e => snd (submit f e s)
  | DeletePost id confirmed => deletePost id confirmed s
  | DeleteReply id confirmed => deleteReply id confirmed s
  | ToggleLike id now => toggleLike id now s
  end.

(** A session: the actions of the user, one after the other. *)
Definition run (actions : list Action) (s : State) : State :=
  fold_left (fun st a => act a st) actions s.

End Actions.

(** A small state to run the operations on. *)
Definition liked_post : Post.t :=
  {| Post.id := 3; Post.texts := [plain_text "liked #note"];
     Post.tags := [js "note"];
     Post.createdAt := 1700000002000; Post.updatedAt := 1700000002000;
     Post.imageId := None; Post.imageRemoved := false;
     Post.isDeleted := false; Post.liked := true;
     Post.likedAt := Some 1700000003000; Post.repostOf := None |}.

Definition sample : State :=
  {| data := {| version := DATA_VERSION;
                posts := [tagged_post; liked_post];
                replies := [a_reply];
                images := [(imageX, js "data:image/png;base64,iVBORw0KGgo=")];
                lastId := 3 |};
     stored := None |}.

Definition sample_env : Env :=
  {| now1 := 1700000010000; now2 := 1700000010001;
     fresh_image_id := js "img-1700000010000-z9y8" |}.

Definition hello_block : TextBlock :=
  {| text_area := js "hello #foo"; language_select := js "ja";
     pronunciation_input := [] |}.

Definition reply_form : Form :=
  {| mode := ReplyMode; targetPost := None; parentId := 1;
     originalImageId := None; text_blocks := [hello_block];
     imageDataUrl := None; removeImage := false |}.

(* ================================================================= *)
(** * Properties *)

(** ** Sorting *)

Section Sorting.
Context {A : Type} (key : A -> Z).

Lemma sort_insert_perm cmp (x : A) l : Permutation (sort_insert cmp x l) (x :: l).
Proof.
  induction l as [|y l IH]; cbn [sort_insert]; [reflexivity|].
  destruct (cmp x y <=? 0); [reflexivity|].
  rewrite IH. apply perm_swap.
Qed.

Lemma js_sort_perm cmp (l : list A) : Permutation (js_sort cmp l) l.
Proof.
  induction l as [|x l IH]; cbn [js_sort fold_right]; [reflexivity|].
  fold (js_sort cmp l). rewrite sort_insert_perm, IH. reflexivity.
Qed.

Lemma sort_insert_sorted x l :
  StronglySorted (fun a b => key a <= key b) l ->
  StronglySorted (fun a b => key a <= key b) (sort_insert (by_key key) x l).
Proof.
  induction 1 as [|y l Hs IH Hy]; cbn [sort_insert].
  - repeat constructor.
  - unfold by_key at 1. destruct (Z.leb_spec (key x - key y) 0).
    + constructor; [constructor; assumption|].
      constructor; [lia|]. eapply List.Forall_impl; [|exact Hy].
      cbn. intros; lia.
    + constructor; [assumption|].
      eapply Permutation_Forall; [symmetry; apply sort_insert_perm|].
      constructor; [lia|assumption].
Qed.

Lemma js_sort_sorted l :
  StronglySorted (fun a b => key a <= key b) (js_sort (by_key key) l).
Proof.
  induction l as [|x l IH]; cbn [js_sort fold_right]; [constructor|].
  apply sort_insert_sorted. exact IH.
Qed.

(** Stability: elements with equal keys keep their order. *)
Lemma sort_insert_stable k x l :
  StronglySorted (fun a b => key a <= key b) l ->
  List.filter (fun a => key a =? k) (sort_insert (by_key key) x l)
  = List.filter (fun a => key a =? k) (x :: l).
Proof.
  induction 1 as [|y l Hs IH Hy]; cbn [sort_insert]; [reflexivity|].
  unfold by_key at 1. destruct (Z.leb_spec (key x - key y) 0); [reflexivity|].
  cbn [List.filter] in *. rewrite IH.
  destruct (Z.eqb_spec (key x) k), (Z.eqb_spec (key y) k); try reflexivity.
  lia.
Qed.

Lemma js_sort_stable k l :
  List.filter (fun a => key a =? k) (js_sort (by_key key) l)
  = List.filter (fun a => key a =? k) l.
Proof.
  induction l as [|x l IH]; cbn [js_sort fold_right]; [reflexivity|].
  fold (js_sort (by_key key) l).
  rewrite sort_insert_stable by apply js_sort_sorted.
  cbn [List.filter]. rewrite IH. reflexivity.
Qed.

(** The first element of the sorted array is the first of the elements of
    least key. *)
Lemma js_sort_head l x rest :
  js_sort (by_key key) l = x :: rest ->
  exists l1 l2, l = l1 ++ x :: l2
    /\ Forall (fun y => key x < key y) l1
    /\ Forall (fun y => key x <= key y) l2.
Proof.
  revert x rest. induction l as [|a l IH]; intros x rest; [discriminate|].
  cbn [js_sort fold_right]. fold (js_sort (by_key key) l).
  destruct (js_sort (by_key key) l) as [|y ys] eqn:Hs.
  - intros [= <- <-]. exists [], l.
    pose proof (js_sort_perm (by_key key) l) as Hp. rewrite Hs in Hp.
    apply Permutation_nil in Hp. subst l. auto.
  - destruct (IH y ys eq_refl) as (l1 & l2 & -> & H1 & H2).
    cbn [sort_insert]. unfold by_key at 1.
    destruct (Z.leb_spec (key a - key y) 0); intros [= <- <-].
    + exists [], (l1 ++ y :: l2). repeat split; [constructor|].
      apply Forall_app. split; [|constructor].
      * eapply List.Forall_impl; [|exact H1]. cbn; intros; lia.
      * lia.
      * eapply List.Forall_impl; [|exact H2]. cbn; intros; lia.
    + exists (a :: l1), l2. repeat split; [|assumption].
      constructor; [lia|assumption].
Qed.

End Sorting.

(** ** References into an array *)

Lemma refs_lookup {A} (l : list A) i x : In (i, x) (refs l) <-> l !! i = Some x.
Proof.
  unfold refs.
  enough (H : forall n, In (i, x) (combine (seq n (length l)) l)
                        <-> (n <= i)%nat /\ l !! (i - n)%nat = Some x).
  { rewrite H. rewrite Nat.sub_0_r. intuition lia. }
  induction l as [|a l IH]; intros n; cbn [length seq combine In].
  - rewrite lookup_nil. intuition discriminate.
  - rewrite IH. split.
    + intros [[= <- <-]|[Hle Hl]].
      * rewrite Nat.sub_diag. auto.
      * split; [lia|]. replace (i - n)%nat with (S (i - S n)) by lia. exact Hl.
    + intros [Hle Hl]. destruct (decide (i = n)) as [->|Hne].
      * rewrite Nat.sub_diag in Hl. left. cbn in Hl. congruence.
      * right. split; [lia|].
        replace (i - n)%nat with (S (i - S n)) in Hl by lia. exact Hl.
Qed.

Lemma refs_sorted {A} (l : list A) :
  StronglySorted (fun a b => (fst a < fst b)%nat) (refs l).
Proof.
  unfold refs.
  enough (H : forall n,
    StronglySorted (fun a b : nat * A => (fst a < fst b)%nat)
      (combine (seq n (length l)) l)
    /\ Forall (fun a : nat * A => (n <= fst a)%nat) (combine (seq n (length l)) l)).
  { apply H. }
  induction l as [|a l IH]; intros n; cbn [length seq combine].
  - split; constructor.
  - destruct (IH (S n)) as [Hs Hf]. split.
    + constructor; [assumption|].
      eapply List.Forall_impl; [|exact Hf]. cbn; intros; lia.
    + constructor; [cbn; lia|].
      eapply List.Forall_impl; [|exact Hf]. cbn; intros; lia.
Qed.

Lemma filter_sorted {A} (R : A -> A -> Prop) f l :
  StronglySorted R l -> StronglySorted R (List.filter f l).
Proof.
  induction 1 as [|a l Hs IH Ha]; cbn [List.filter]; [constructor|].
  destruct (f a); [|assumption].
  constructor; [assumption|].
  rewrite List.Forall_forall in *. intros y Hy.
  apply List.filter_In in Hy. apply Ha, Hy.
Qed.

Lemma sorted_app_inv {A} (R : A -> A -> Prop) l1 x l2 :
  StronglySorted R (l1 ++ x :: l2) ->
  Forall (fun y => R y x) l1 /\ Forall (fun y => R x y) l2.
Proof.
  induction l1 as [|a l1 IH]; cbn [app]; intros H.
  - apply StronglySorted_inv in H as [_ H]. auto.
  - apply StronglySorted_inv in H as [Hs Ha]. destruct (IH Hs) as [H1 H2].
    split; [|assumption]. constructor; [|assumption].
    rewrite List.Forall_forall in Ha. apply Ha. apply in_or_app. right. left. reflexivity.
Qed.

(** ** Strings and optional strings *)

Lemma str_eqb_eq a b : str_eqb a b = true <-> a = b.
Proof.
  revert b; induction a as [|x a IH]; intros [|y b]; cbn [str_eqb];
    try (split; congruence).
  unfold unit_eqb. rewrite andb_true_iff, Z.eqb_eq, IH. split.
  - intros [-> ->]; reflexivity.
  - intros [= -> ->]; auto.
Qed.

Lemma str_eqb_refl a : str_eqb a a = true.
Proof. apply str_eqb_eq; reflexivity. Qed.

Lemma opt_str_eqb_eq a b : opt_str_eqb a b = true <-> a = b.
Proof.
  destruct a, b; cbn [opt_str_eqb]; try (split; congruence).
  rewrite str_eqb_eq. split; congruence.
Qed.

(** ** Releasing an image *)

(** The defect shared by the callers that release before they drop the
    reference: while a post still carries the id the image is "used". *)
Lemma removeImageIfUnused_referenced d p :
  In p (posts d) -> removeImageIfUnused (Post.imageId p) d = d.
Proof.
  intros Hin. unfold removeImageIfUnused.
  destruct (Post.imageId p) as [[|c k]|] eqn:E; try reflexivity.
  assert (Hused : existsb (fun q => opt_str_eqb (Post.imageId q) (Some (c :: k)))
                    (posts d) = true).
  { apply existsb_exists. exists p. split; [assumption|].
    apply opt_str_eqb_eq. assumption. }
  rewrite Hused. reflexivity.
Qed.

Lemma removeImageIfUnused_posts i d : posts (removeImageIfUnused i d) = posts d.
Proof.
  unfold removeImageIfUnused. destruct i as [[|c k]|]; try reflexivity.
  destruct (negb _); reflexivity.
Qed.

Lemma removeImageIfUnused_replies i d :
  replies (removeImageIfUnused i d) = replies d.
Proof.
  unfold removeImageIfUnused. destruct i as [[|c k]|]; try reflexivity.
  destruct (negb _); reflexivity.
Qed.

Lemma obj_get_delete_ne k k' m :
  k <> k' -> obj_get k' (obj_delete k m) = obj_get k' m.
Proof.
  intros Hne. unfold obj_delete.
  induction m as [|[a v] m IH]; cbn [List.filter obj_get fst]; [reflexivity|].
  destruct (str_eqb a k) eqn:Ea; cbn [negb obj_get].
  - apply str_eqb_eq in Ea. subst a.
    destruct (str_eqb k k') eqn:E; [apply str_eqb_eq in E; contradiction|].
    exact IH.
  - rewrite IH. reflexivity.
Qed.

(** Whatever the order of the calls, an image that a post or a reply
    references is never deleted. *)
Lemma removeImageIfUnused_keeps i d k :
  (exists p, In p (posts d) /\ Post.imageId p = Some k)
  \/ (exists r, In r (replies d) /\ Reply.imageId r = Some k) ->
  obj_get k (images (removeImageIfUnused i d)) = obj_get k (images d).
Proof.
  intros Href. unfold removeImageIfUnused.
  destruct i as [[|c j]|]; try reflexivity.
  destruct (negb _) eqn:Hused; [|reflexivity].
  cbn [images set_images]. apply obj_get_delete_ne. intros <-.
  apply negb_true_iff, orb_false_iff in Hused as [Hp Hr].
  destruct Href as [(p & Hin & E)|(r & Hin & E)].
  - assert (existsb (fun q => opt_str_eqb (Post.imageId q) (Some (c :: j)))
              (posts d) = true); [|congruence].
    apply existsb_exists. exists p. split; [assumption|].
    apply opt_str_eqb_eq. assumption.
  - assert (existsb (fun q => opt_str_eqb (Reply.imageId q) (Some (c :: j)))
              (replies d) = true); [|congruence].
    apply existsb_exists. exists r. split; [assumption|].
    apply opt_str_eqb_eq. assumption.
Qed.

(** ** One turn of the eviction loop *)

Lemma candidates_head d i target rest :
  candidates d = (i, target) :: rest -> oldest_with_image (posts d) i target.
Proof.
  unfold candidates. intros Hc.
  change (fun a b : nat * Post.t => Post.createdAt (snd a) - Post.createdAt (snd b))
    with (by_key (fun a : nat * Post.t => Post.createdAt (snd a))) in Hc.
  apply js_sort_head in Hc as (l1 & l2 & Hl & H1 & H2).
  assert (Hin : forall j p, posts d !! j = Some p ->
            truthy (Post.imageId p) = true ->
            In (j, p) (l1 ++ (i, target) :: l2)).
  { intros j p Hj Hp. rewrite <- Hl. apply List.filter_In. split; [|exact Hp].
    apply refs_lookup. exact Hj. }
  assert (Htarget : In (i, target)
            (List.filter (fun a : nat * Post.t => truthy (Post.imageId (snd a)))
               (refs (posts d)))).
  { rewrite Hl. apply in_or_app. right. left. reflexivity. }
  apply List.filter_In in Htarget as [Href Htruthy].
  apply refs_lookup in Href.
  pose proof (filter_sorted _ (fun a : nat * Post.t => truthy (Post.imageId (snd a)))
                _ (refs_sorted (posts d))) as Hsorted.
  rewrite Hl in Hsorted. apply sorted_app_inv in Hsorted as [Hbefore Hafter].
  split; [assumption|]. split; [assumption|].
  intros j p Hj Hp. specialize (Hin j p Hj Hp).
  rewrite List.Forall_forall in H1, H2, Hbefore, Hafter.
  apply in_app_or in Hin as [Hin|[Heq|Hin]].
  - specialize (H1 _ Hin). cbn in H1. split; lia.
  - injection Heq as <- <-. split; lia.
  - specialize (H2 _ Hin). specialize (Hafter _ Hin). cbn in H2, Hafter.
    split; lia.
Qed.

Lemma evict_body_Some d d' :
  evict_body d = Some d' ->
  exists i target,
    oldest_with_image (posts d) i target
    /\ d' = set_posts (alter strip i (posts d)) d.
Proof.
  unfold evict_body. destruct (candidates d) as [|[i target] rest] eqn:Hc;
    [discriminate|].
  intros [= <-]. exists i, target.
  pose proof (candidates_head _ _ _ _ Hc) as Hold.
  split; [assumption|].
  destruct Hold as (Hi & _ & _).
  rewrite removeImageIfUnused_referenced
    by (apply list_elem_of_In, list_elem_of_lookup; eauto).
  cbn [posts set_posts]. unfold set_posts; cbn. f_equal.
  rewrite list_alter_alter_eq. reflexivity.
Qed.

Lemma candidates_nil d :
  candidates d = [] <->
  Forall (fun p => truthy (Post.imageId p) = false) (posts d).
Proof.
  unfold candidates. split.
  - intros Hc. apply List.Forall_forall. intros p Hp.
    apply list_elem_of_In, list_elem_of_lookup in Hp as [j Hj].
    destruct (truthy (Post.imageId p)) eqn:E; [|reflexivity].
    assert (Hin : In (j, p)
              (List.filter (fun a : nat * Post.t => truthy (Post.imageId (snd a)))
                 (refs (posts d)))).
    { apply List.filter_In. split; [apply refs_lookup|]; assumption. }
    eapply Permutation_in in Hin; [|symmetry; apply js_sort_perm].
    rewrite Hc in Hin. destruct Hin.
  - intros Hall.
    destruct (js_sort _ _) as [|[i p] rest] eqn:Hs; [reflexivity|].
    assert (Hin : In (i, p)
              (List.filter (fun a : nat * Post.t => truthy (Post.imageId (snd a)))
                 (refs (posts d)))).
    { eapply Permutation_in; [apply js_sort_perm|]. rewrite Hs. left. reflexivity. }
    apply List.filter_In in Hin as [Href Ht]. apply refs_lookup in Href.
    rewrite List.Forall_forall in Hall.
    rewrite Hall in Ht; [discriminate|].
    apply list_elem_of_In, list_elem_of_lookup. eauto.
Qed.

(** ** Counting the posts that reference an image *)

Lemma filter_alter_drop {A} (f : A -> bool) (g : A -> A) l : forall i x,
  l !! i = Some x -> f x = true -> f (g x) = false ->
  S (length (List.filter f (alter g i l))) = length (List.filter f l).
Proof.
  induction l as [|a l IH]; intros [|i] x Hl Hx Hg; try discriminate.
  - injection Hl as ->. cbn. rewrite Hx, Hg. reflexivity.
  - cbn in Hl. cbn [alter list_alter List.filter].
    change (list_alter g i l) with (alter g i l).
    destruct (f a); cbn [length]; erewrite IH; eauto.
Qed.

Lemma truthy_has_image p : truthy (Post.imageId p) = true -> has_image p = true.
Proof. unfold has_image. destruct (Post.imageId p) as [[|]|]; auto. Qed.

Lemma image_count_strip d i target :
  posts d !! i = Some target -> truthy (Post.imageId target) = true ->
  S (image_count (set_posts (alter strip i (posts d)) d)) = image_count d.
Proof.
  intros Hi Ht. unfold image_count. cbn [posts set_posts].
  apply (filter_alter_drop has_image strip _ i target);
    auto using truthy_has_image.
Qed.

Lemma image_count_le d : (image_count d <= length (posts d))%nat.
Proof. apply List.filter_length_le. Qed.

Lemma evict_step_Some d d' :
  evict_step d = Some d' ->
  STORAGE_LIMIT < str_length (stringify d) /\ evict_body d = Some d'.
Proof.
  unfold evict_step. destruct (Z.gtb_spec (str_length (stringify d)) STORAGE_LIMIT);
    [auto|discriminate].
Qed.

Lemma evict_step_None d :
  evict_step d = None ->
  str_length (stringify d) <= STORAGE_LIMIT \/ candidates d = [].
Proof.
  unfold evict_step, evict_body.
  destruct (Z.gtb_spec (str_length (stringify d)) STORAGE_LIMIT); [|auto].
  destruct (candidates d) as [|[i t] rest]; [auto|discriminate].
Qed.

Lemma evict_step_count d d' :
  evict_step d = Some d' -> S (image_count d') = image_count d.
Proof.
  intros H. apply evict_step_Some in H as [_ H].
  apply evict_body_Some in H as (i & target & (Hi & Ht & _) & ->).
  eapply image_count_strip; eassumption.
Qed.

(** ** The loop terminates *)

Lemma evict_loop_run fuel : forall d,
  (image_count d < fuel)%nat ->
  exists n, (n <= image_count d)%nat /\ loop_run d n (evict_loop fuel d).
Proof.
  induction fuel as [|fuel IH]; intros d Hfuel; [lia|].
  cbn [evict_loop]. destruct (evict_step d) as [d1|] eqn:Hstep.
  - pose proof (evict_step_count _ _ Hstep) as Hcount.
    destruct (IH d1 ltac:(lia)) as (n & Hn & Hrun).
    exists (S n). split; [lia|]. econstructor; eassumption.
  - exists O. split; [lia|]. constructor. assumption.
Qed.

Lemma loop_run_deterministic d n d' :
  loop_run d n d' -> forall m d'', loop_run d m d'' -> n = m /\ d' = d''.
Proof.
  induction 1 as [d Hleave|d d1 n d' Hstep Hrun IH]; intros m d'' Hrun'.
  - inversion Hrun'; subst; [auto|congruence].
  - inversion Hrun' as [? Hleave|? d1' m' ? Hstep' Hrun'']; subst; [congruence|].
    rewrite Hstep in Hstep'. injection Hstep' as <-.
    destruct (IH _ _ Hrun'') as [-> ->]. auto.
Qed.

Lemma loop_run_final d n d' : loop_run d n d' -> evict_step d' = None.
Proof. induction 1; assumption. Qed.

(** ** The size of the serialized data *)

Lemma quote_unit_length b1 b2 c : (1 <= length (quote_unit b1 b2 c))%nat.
Proof.
  unfold quote_unit, unicode_escape.
  repeat match goal with |- context [if ?b then _ else _] => destruct b end;
    cbn [length]; lia.
Qed.

Lemma quote_units_length s : forall b, (length s <= length (quote_units b s))%nat.
Proof.
  induction s as [|c s IH]; intros b; cbn [quote_units length]; [lia|].
  rewrite length_app.
  pose proof (quote_unit_length b (head_is_low s) c).
  pose proof (IH (is_high c && head_is_low s)). lia.
Qed.

Lemma json_string_length s : (length s + 2 <= length (json_string s))%nat.
Proof.
  unfold json_string. rewrite !length_app. cbn [length].
  pose proof (quote_units_length s false). lia.
Qed.

Lemma join_comma_In x items :
  In x items -> (length x <= length (join_comma items))%nat.
Proof.
  induction items as [|y items IH]; [intros []|].
  intros Hin. cbn [join_comma]. destruct items as [|z items].
  - destruct Hin as [->|[]]. lia.
  - rewrite !length_app. destruct Hin as [->|Hin]; [lia|].
    specialize (IH Hin). lia.
Qed.

Lemma list_sum_cons x l : list_sum (x :: l) = (x + list_sum l)%nat.
Proof. reflexivity. Qed.

Lemma join_comma_sum items :
  (list_sum (map (@length Z) items) <= length (join_comma items))%nat.
Proof.
  induction items as [|y items IH]; [cbn; lia|].
  change (list_sum (map (@length Z) (y :: items)))
    with (length y + list_sum (map (@length Z) items))%nat.
  cbn [join_comma]. destruct items as [|z items].
  - cbn. lia.
  - rewrite !length_app. lia.
Qed.

Lemma json_images_length m : payload_size m <= str_length (json_images m).
Proof.
  unfold json_images, json_object, str_length. rewrite !length_app.
  pose proof (join_comma_sum
                (map json_member (map (fun kv : list Z * list Z => (fst kv, json_string (snd kv))) m)))
    as Hsum.
  assert (Hpay : payload_size m <=
    Z.of_nat (list_sum (map (@length Z)
      (map json_member (map (fun kv : list Z * list Z => (fst kv, json_string (snd kv))) m))))).
  { clear Hsum. induction m as [|[k v] m IH]; [cbn; lia|].
    cbn [map]. rewrite list_sum_cons.
    cbn [payload_size fold_right]. fold (payload_size m).
    unfold json_member at 1. cbn [fst snd].
    rewrite !length_app. pose proof (json_string_length v).
    unfold str_length. lia. }
  lia.
Qed.

Lemma stringify_length d : payload_size (images d) < str_length (stringify d).
Proof.
  pose proof (json_images_length (images d)) as Himg.
  unfold stringify, json_object.
  set (members := map json_member _).
  assert (Hin : In (json_member (js "images", json_images (images d))) members).
  { unfold members. cbn [map In]. auto 6. }
  apply join_comma_In in Hin. unfold json_member in Hin at 1.
  cbn [fst snd] in Hin. rewrite !length_app in Hin.
  unfold str_length in *. rewrite !length_app. cbn [length]. lia.
Qed.

(** While the payloads alone exceed the limit the loop condition holds. *)
Lemma evict_step_over d :
  STORAGE_LIMIT <= payload_size (images d) -> evict_step d = evict_body d.
Proof.
  intros H. pose proof (stringify_length d). unfold evict_step.
  destruct (Z.gtb_spec (str_length (stringify d)) STORAGE_LIMIT); [reflexivity|lia].
Qed.


Lemma map_alter_absorb {A B} (f : A -> B) (g : A -> A) l :
  (forall x, f (g x) = f x) -> forall i, map f (alter g i l) = map f l.
Proof.
  intros H. induction l as [|a l IH]; intros [|i]; cbn; try reflexivity.
  - rewrite H. reflexivity.
  - f_equal. apply IH.
Qed.

Lemma same_but_post_images_refl d : same_but_post_images d d.
Proof. repeat split. Qed.

Lemma same_but_post_images_trans d1 d2 d3 :
  same_but_post_images d1 d2 -> same_but_post_images d2 d3 ->
  same_but_post_images d1 d3.
Proof.
  intros (? & ? & ? & ?) (? & ? & ? & ?). repeat split; congruence.
Qed.

Lemma evict_step_frame d d' :
  evict_step d = Some d' -> same_but_post_images d d' /\ images d' = images d.
Proof.
  intros H. apply evict_step_Some in H as [_ H].
  apply evict_body_Some in H as (i & target & _ & ->).
  repeat split. cbn [posts set_posts].
  apply map_alter_absorb. reflexivity.
Qed.

Lemma evict_loop_frame fuel : forall d,
  same_but_post_images d (evict_loop fuel d)
  /\ images (evict_loop fuel d) = images d.
Proof.
  induction fuel as [|fuel IH]; intros d; cbn [evict_loop].
  - split; [apply same_but_post_images_refl|reflexivity].
  - destruct (evict_step d) as [d1|] eqn:Hstep.
    + destruct (evict_step_frame _ _ Hstep) as [H1 Hi1].
      destruct (IH d1) as [H2 Hi2].
      split; [eapply same_but_post_images_trans; eassumption|congruence].
    + split; [apply same_but_post_images_refl|reflexivity].
Qed.

Lemma persistData_data s :
  data (persistData s) = evict_loop (S (length (posts (data s)))) (data s).
Proof. reflexivity. Qed.

Lemma persistData_stored s :
  stored (persistData s) = Some (stringify (data (persistData s))).
Proof. reflexivity. Qed.

Lemma persistData_frame s : same_but_post_images (data s) (data (persistData s)).
Proof. rewrite persistData_data. apply evict_loop_frame. Qed.

(** As the code stands, no persist ever removes a payload: the eviction
    releases an image only while the post still references it. *)
Lemma persistData_images_kept s : images (data (persistData s)) = images (data s).
Proof. rewrite persistData_data. apply evict_loop_frame. Qed.

Lemma without_image_lookup ps ps' i p :
  map without_image ps' = map without_image ps ->
  ps !! i = Some p ->
  exists p', ps' !! i = Some p' /\ without_image p' = without_image p.
Proof.
  intros Hmap Hi.
  assert (H : map without_image ps' !! i = Some (without_image p)).
  { rewrite Hmap. change (map without_image ps) with (without_image <$> ps).
    rewrite list_lookup_fmap, Hi. reflexivity. }
  change (map without_image ps') with (without_image <$> ps') in H.
  rewrite list_lookup_fmap in H.
  destruct (ps' !! i) as [p'|]; [|discriminate].
  exists p'. split; [reflexivity|].
  change (Some (without_image p') = Some (without_image p)) in H. congruence.
Qed.

Lemma without_image_texts p p' :
  without_image p' = without_image p ->
  Post.texts p' = Post.texts p /\ Post.tags p' = Post.tags p
  /\ Post.isDeleted p' = Post.isDeleted p /\ Post.id p' = Post.id p
  /\ Post.updatedAt p' = Post.updatedAt p /\ Post.createdAt p' = Post.createdAt p.
Proof.
  intros H.
  repeat split.
  - exact (f_equal Post.texts H).
  - exact (f_equal Post.tags H).
  - exact (f_equal Post.isDeleted H).
  - exact (f_equal Post.id H).
  - exact (f_equal Post.updatedAt H).
  - exact (f_equal Post.createdAt H).
Qed.

(** ** The submit handler *)

Lemma ensureImageId_frame url fresh d :
  let d' := snd (ensureImageId url fresh d) in
  version d' = version d /\ posts d' = posts d /\ replies d' = replies d
  /\ lastId d' = lastId d.
Proof.
  unfold ensureImageId. destruct (List.find _ _); cbn; auto.
Qed.

Lemma chosen_image_frame f e d :
  let d' := snd (chosen_image f e d) in
  version d' = version d /\ posts d' = posts d /\ replies d' = replies d
  /\ lastId d' = lastId d.
Proof.
  unfold chosen_image.
  destruct (imageDataUrl f) as [[|c url]|].
  - destruct (removeImage f); cbn; auto.
  - pose proof (ensureImageId_frame (c :: url) (fresh_image_id e) d) as H.
    destruct (ensureImageId _ _ _). exact H.
  - destruct (removeImage f); cbn; auto.
Qed.

Lemma removeImageIfUnused_frame i d :
  let d' := removeImageIfUnused i d in
  version d' = version d /\ posts d' = posts d /\ replies d' = replies d
  /\ lastId d' = lastId d.
Proof.
  unfold removeImageIfUnused. destruct i as [[|c k]|]; cbn; auto.
  destruct (negb _); cbn; auto.
Qed.

Section SubmitFacts.
Context {U : Unicode}.

Lemma hasContent_Exists blocks :
  existsb (fun t => 0 <? str_length (content t)) (map read_block blocks) = true
  <-> Exists (fun b => trim (text_area b) <> []) blocks.
Proof.
  rewrite existsb_exists, List.Exists_exists. split.
  - intros (t & Hin & Hlen). apply in_map_iff in Hin as (b & <- & Hb).
    exists b. split; [assumption|]. cbn [read_block content] in Hlen.
    intros E. rewrite E in Hlen. discriminate.
  - intros (b & Hb & Hne). exists (read_block b). split; [apply in_map; assumption|].
    cbn [read_block content]. unfold str_length.
    destruct (trim (text_area b)); [contradiction|reflexivity].
Qed.

Lemma submit_rejects f e s :
  Forall (fun b => trim (text_area b) = []) (text_blocks f) ->
  submit f e s = (Rejected, s).
Proof.
  intros Hall. unfold submit.
  destruct (existsb _ _) eqn:E; [|reflexivity].
  apply hasContent_Exists, List.Exists_exists in E as (b & Hb & Hne).
  rewrite List.Forall_forall in Hall. contradiction (Hne (Hall _ Hb)).
Qed.

Lemma push_post_spec f e textBlocks tags imageId d :
  let d' := push_post f e textBlocks tags imageId d in
  lastId d' = lastId d + 1 /\ replies d' = replies d /\
  exists p, posts d' = posts d ++ [p] /\ Post.id p = lastId d + 1
    /\ Post.texts p = textBlocks /\ Post.tags p = tags.
Proof. cbn. repeat split. eexists. repeat split. Qed.

Lemma push_reply_spec f e textBlocks tags imageId d :
  let d' := push_reply f e textBlocks tags imageId d in
  lastId d' = lastId d + 1 /\ posts d' = posts d /\
  exists r, replies d' = replies d ++ [r] /\ Reply.id r = lastId d + 1
    /\ Reply.postId r = parentId f
    /\ Reply.texts r = textBlocks /\ Reply.tags r = tags.
Proof. cbn. repeat split. eexists. repeat split. Qed.

Lemma edit_target_post f e i textBlocks tags imageId d p :
  posts d !! i = Some p ->
  exists p', posts (edit_target f e (PostRef i) textBlocks tags imageId d) !! i = Some p'
    /\ Post.texts p' = textBlocks /\ Post.tags p' = tags
    /\ Post.updatedAt p' = now1 e.
Proof.
  intros Hi. unfold edit_target.
  repeat match goal with
  | |- context [match ?x with Some _ => _ | None => _ end] => destruct x
  | |- context [if ?b then _ else _] => destruct b
  end;
  cbn [mutate_target posts set_posts];
  rewrite ?(proj1 (proj2 (removeImageIfUnused_frame _ _)));
  cbn [mutate_target posts set_posts];
  rewrite ?(proj1 (proj2 (removeImageIfUnused_frame _ _)));
  cbn [mutate_target posts set_posts];
  rewrite !list_lookup_alter_eq, Hi; cbn; eauto.
Qed.

Lemma edit_target_reply f e i textBlocks tags imageId d r :
  replies d !! i = Some r ->
  exists r', replies (edit_target f e (ReplyRef i) textBlocks tags imageId d) !! i = Some r'
    /\ Reply.texts r' = textBlocks /\ Reply.tags r' = tags
    /\ Reply.updatedAt r' = now1 e.
Proof.
  intros Hi. unfold edit_target.
  repeat match goal with
  | |- context [match ?x with Some _ => _ | None => _ end] => destruct x
  | |- context [if ?b then _ else _] => destruct b
  end;
  cbn [mutate_target replies set_replies];
  rewrite ?(proj1 (proj2 (proj2 (removeImageIfUnused_frame _ _))));
  cbn [mutate_target replies set_replies];
  rewrite ?(proj1 (proj2 (proj2 (removeImageIfUnused_frame _ _))));
  cbn [mutate_target replies set_replies];
  rewrite !list_lookup_alter_eq, Hi; cbn; eauto.
Qed.

Lemma submit_accepts f e s :
  Exists (fun b => trim (text_area b) <> []) (text_blocks f) ->
  fst (submit f e s) = Submitted
  /\ stored (snd (submit f e s)) = Some (stringify (data (snd (submit f e s))))
  /\ submitted f e s (snd (submit f e s)).
Proof.
  intros Hex. apply hasContent_Exists in Hex. unfold submit. rewrite Hex.
  cbn [negb].
  pose proof (chosen_image_frame f e (data s)) as Hframe.
  destruct (chosen_image f e (data s)) as [imageId d]. cbn [snd] in Hframe.
  destruct Hframe as (Hv & Hp & Hr & Hl).
  cbn [fst snd]. split; [reflexivity|]. split; [reflexivity|].
  set (textBlocks := map read_block (text_blocks f)).
  set (tags := extractTags textBlocks).
  unfold submitted. fold textBlocks. fold tags.
  set (d' := match mode f, targetPost f with
             | ReplyMode, _ => push_reply f e textBlocks tags imageId d
             | EditMode, Some t => edit_target f e t textBlocks tags imageId d
             | _, _ => push_post f e textBlocks tags imageId d
             end).
  pose proof (persistData_frame (set_data d' s)) as (_ & Hr' & Hl' & Hp').
  cbn [data set_data] in Hr', Hl', Hp'.
  assert (Hpost : d' = push_post f e textBlocks tags imageId d ->
    lastId (data (persistData (set_data d' s))) = lastId (data s) + 1
    /\ exists p,
         map without_image (posts (data (persistData (set_data d' s))))
         = map without_image (posts (data s)) ++ [without_image p]
         /\ Post.id p = lastId (data s) + 1
         /\ Post.texts p = textBlocks /\ Post.tags p = tags).
  { intros ->. destruct (push_post_spec f e textBlocks tags imageId d)
      as (Hl1 & _ & p & Hp1 & Hid & Ht & Hg).
    split; [congruence|]. exists p. rewrite Hp', Hp1, map_app, Hp.
    repeat split; congruence. }
  assert (Hreply : d' = push_reply f e textBlocks tags imageId d ->
    lastId (data (persistData (set_data d' s))) = lastId (data s) + 1
    /\ exists r, replies (data (persistData (set_data d' s))) = replies (data s) ++ [r]
         /\ Reply.id r = lastId (data s) + 1
         /\ Reply.postId r = parentId f
         /\ Reply.texts r = textBlocks /\ Reply.tags r = tags).
  { intros ->. destruct (push_reply_spec f e textBlocks tags imageId d)
      as (Hl1 & _ & r & Hr1 & Hid & Hpid & Ht & Hg).
    split; [congruence|]. exists r. rewrite Hr', Hr1, Hr.
    repeat split; congruence. }
  subst d'. destruct (mode f), (targetPost f) as [[i|i|p]|];
    try (apply Hpost; reflexivity); try (apply Hreply; reflexivity); try exact I.
  - intros p Hi. rewrite <- Hp in Hi.
    destruct (edit_target_post f e i textBlocks tags imageId d p Hi)
      as (p1 & Hi1 & Ht & Hg & Hu).
    destruct (without_image_lookup _ _ _ _ Hp' Hi1) as (p' & Hi' & Hw).
    apply without_image_texts in Hw as (Ht' & Hg' & _ & _ & Hu' & _).
    exists p'. repeat split; congruence.
  - intros r Hi. rewrite <- Hr in Hi.
    destruct (edit_target_reply f e i textBlocks tags imageId d r Hi)
      as (r1 & Hi1 & Ht & Hg & Hu).
    exists r1. rewrite Hr'. auto.
Qed.

End SubmitFacts.


Lemma str_eqb_neq a b : str_eqb a b = false <-> a <> b.
Proof.
  rewrite <- str_eqb_eq. destruct (str_eqb a b); split; congruence.
Qed.

Section TagFacts.
Context {U : Unicode}.

Lemma tag_char_not_hash c : tag_char c = true -> c <> 35.
Proof.
  intros H ->. vm_compute in H. discriminate.
Qed.

Lemma is_high_not_hash c : is_high c = true -> c <> 35.
Proof. unfold is_high. intros H ->. discriminate. Qed.

Lemma class_run_pair h l t :
  class_run (h :: l :: t) =
  if is_high h && is_low l then
    if tag_char (codepoint h l)
    then let (r, rest) := class_run t in (h :: l :: r, rest)
    else ([], h :: l :: t)
  else
    if tag_char h
    then let (r, rest) := class_run (l :: t) in (h :: r, rest)
    else ([], h :: l :: t).
Proof. reflexivity. Qed.

Lemma class_run_single h :
  class_run [h] = if tag_char h then ([h], []) else ([], [h]).
Proof. reflexivity. Qed.

(** Induction over a string two units at a time. *)
Lemma units_ind (P : jsstring -> Prop) :
  P [] -> (forall h, P [h]) ->
  (forall h l t, P t -> P (l :: t) -> P (h :: l :: t)) ->
  forall s, P s.
Proof.
  intros H0 H1 H2 s.
  assert (P s /\ forall c, P (c :: s)) as [? _]; [|assumption].
  induction s as [|a s [IHs IHc]]; split; auto.
Qed.

Lemma class_run_split s :
  s = fst (class_run s) ++ snd (class_run s).
Proof.
  induction s as [|h|h l t IH1 IH2] using units_ind.
  - reflexivity.
  - rewrite class_run_single. destruct (tag_char h); reflexivity.
  - rewrite class_run_pair.
    destruct (is_high h && is_low l).
    + destruct (tag_char (codepoint h l)); [|reflexivity].
      destruct (class_run t) as [r rest]; simpl in *. congruence.
    + destruct (tag_char h); [|reflexivity].
      destruct (class_run (l :: t)) as [r rest]; simpl in *. congruence.
Qed.

(** No unit of a run is a [#]; so no token starts inside a run. *)
Lemma class_run_no_hash s : Forall (fun c => c <> 35) (fst (class_run s)).
Proof.
  induction s as [|h|h l t IH1 IH2] using units_ind.
  - constructor.
  - rewrite class_run_single. destruct (tag_char h) eqn:E; simpl; auto.
    constructor; auto using tag_char_not_hash.
  - rewrite class_run_pair.
    destruct (is_high h && is_low l) eqn:Hp.
    + destruct (tag_char (codepoint h l)); [|constructor].
      destruct (class_run t) as [r rest]; simpl in *.
      apply andb_true_iff in Hp as [Hh Hl].
      constructor; [apply is_high_not_hash; auto|].
      constructor; auto. unfold is_low in Hl. intros ->. discriminate.
    + destruct (tag_char h) eqn:E; [|constructor].
      destruct (class_run (l :: t)) as [r rest]; simpl in *.
      constructor; auto using tag_char_not_hash.
Qed.

(** A run is maximal: what follows it does not start with a class code
    point. *)
Lemma class_run_maximal s : fst (class_run (snd (class_run s))) = [].
Proof.
  induction s as [|h|h l t IH1 IH2] using units_ind.
  - reflexivity.
  - rewrite class_run_single. destruct (tag_char h) eqn:E; cbn [fst snd].
    + reflexivity.
    + rewrite class_run_single, E. reflexivity.
  - rewrite class_run_pair.
    destruct (is_high h && is_low l) eqn:Hp.
    + destruct (tag_char (codepoint h l)) eqn:E.
      * destruct (class_run t) as [r rest]; cbn [fst snd] in *. assumption.
      * cbn [fst snd]. rewrite class_run_pair, Hp, E. reflexivity.
    + destruct (tag_char h) eqn:E.
      * destruct (class_run (l :: t)) as [r rest]; cbn [fst snd] in *. assumption.
      * cbn [fst snd]. rewrite class_run_pair, Hp, E. reflexivity.
Qed.

Lemma tokens_skip (r s : jsstring) :
  Forall (fun c => c <> 35) r -> tokens (r ++ s) = tokens s.
Proof.
  induction 1 as [|c r Hc _ IH]; simpl; auto.
  destruct (Z.eqb_spec c 35); [contradiction|assumption].
Qed.

(** The leftmost match and the tokens after it. *)
Lemma regex_search_tokens s :
  match regex_search s with
  | None => tokens s = []
  | Some (off, cap) =>
      (off + 1 + length cap <= length s)%nat /\
      tokens s = cap :: tokens (drop (off + 1 + length cap) s)
  end.
Proof.
  induction s as [|c t IH]; simpl; [reflexivity|].
  assert (Hlater :
    match
      match regex_search t with
      | Some (off, cap) => Some (S off, cap)
      | None => None
      end
    with
    | None => tokens t = []
    | Some (off, cap) =>
        (off + 1 + length cap <= S (length t))%nat /\
        tokens t = cap :: tokens (drop (off + 1 + length cap) (c :: t))
    end).
  { destruct (regex_search t) as [[off cap]|]; [|assumption].
    destruct IH as [Hle IH]. split; [lia|]. exact IH. }
  destruct (c =? 35); [|exact Hlater].
  pose proof (class_run_split t) as Hsplit.
  pose proof (class_run_no_hash t) as Hno.
  destruct (class_run t) as [run rest]; cbn [fst snd] in *.
  destruct run as [|x cap]; [exact Hlater|].
  subst t. split.
  - rewrite length_app. simpl. lia.
  - f_equal.
    change (drop (0 + 1 + length (x :: cap)) (c :: (x :: cap) ++ rest))
      with (drop (length (x :: cap)) ((x :: cap) ++ rest)).
    rewrite drop_app_length. apply tokens_skip. assumption.
Qed.

Lemma class_run_word s : class_word (fst (class_run s)).
Proof.
  induction s as [|h|h l t IH1 IH2] using units_ind.
  - constructor.
  - rewrite class_run_single. destruct (tag_char h) eqn:E; cbn [fst].
    + constructor; [assumption|constructor].
    + constructor.
  - rewrite class_run_pair.
    destruct (is_high h && is_low l) eqn:Hp.
    + destruct (tag_char (codepoint h l)) eqn:E; [|constructor].
      destruct (class_run t) as [r rest]; cbn [fst] in *.
      apply andb_true_iff in Hp as [Hh Hl]. constructor; assumption.
    + destruct (tag_char h) eqn:E; [|constructor].
      destruct (class_run (l :: t)) as [r rest]; cbn [fst] in *.
      constructor; assumption.
Qed.

(** Every token stands in the string right after a [#], is a non-empty
    word of class code points, and is followed by none. *)
Lemma tokens_shape s tok :
  In tok (tokens s) ->
  tok <> [] /\ class_word tok /\
  exists pre post, s = pre ++ 35 :: tok ++ post /\ fst (class_run post) = [].
Proof.
  induction s as [|c t IH]; simpl; [tauto|].
  assert (Hrec : In tok (tokens t) ->
    tok <> [] /\ class_word tok /\
    exists pre post, c :: t = pre ++ 35 :: tok ++ post /\ fst (class_run post) = []).
  { intros Hin. destruct (IH Hin) as (Hne & Hw & pre & post & -> & Hmax).
    repeat split; auto. exists (c :: pre), post. auto. }
  destruct (Z.eqb_spec c 35) as [->|_]; [|exact Hrec].
  pose proof (class_run_split t) as Hsplit.
  pose proof (class_run_word t) as Hword.
  pose proof (class_run_maximal t) as Hmax.
  destruct (class_run t) as [run rest]; cbn [fst snd] in *.
  destruct run as [|x cap]; [exact Hrec|].
  intros [<-|Hin]; [|auto].
  repeat split; [discriminate|assumption|].
  exists [], rest. subst t. auto.
Qed.

Lemma exec_loop_tokens fuel : forall content lastIndex tagSet,
  (lastIndex <= length content)%nat ->
  (length content - lastIndex < fuel)%nat ->
  exec_loop fuel content lastIndex tagSet =
  (add_all (tokens (drop lastIndex content)) tagSet, O).
Proof.
  induction fuel as [|fuel IH]; intros content li tagSet Hli Hfuel; [lia|].
  cbn [exec_loop]. unfold regex_exec.
  destruct (Nat.ltb_spec (length content) li) as [|_]; [lia|].
  pose proof (regex_search_tokens (drop li content)) as Hs.
  destruct (regex_search (drop li content)) as [[off cap]|].
  - destruct Hs as [Hle Htok]. rewrite length_drop in Hle.
    rewrite IH by lia. rewrite Htok, drop_drop.
    replace (li + (off + 1 + length cap))%nat with (li + off + 1 + length cap)%nat by lia.
    reflexivity.
  - rewrite Hs. reflexivity.
Qed.

Lemma extractTags_fold texts :
  extractTags texts = add_all (flat_map (fun t => tokens (content t)) texts) [].
Proof.
  unfold extractTags.
  enough (H : forall acc,
    fold_left
      (fun (a : list jsstring * nat) t =>
         exec_loop (S (length (content t))) (content t) (snd a) (fst a))
      texts (acc, O)
    = (add_all (flat_map (fun t => tokens (content t)) texts) acc, O)).
  { rewrite H. reflexivity. }
  induction texts as [|t texts IH]; intros acc; [reflexivity|].
  cbn [fold_left flat_map snd fst].
  rewrite exec_loop_tokens by lia.
  rewrite IH. unfold add_all. rewrite fold_left_app. reflexivity.
Qed.

Lemma str_eqb_sym a b : str_eqb a b = str_eqb b a.
Proof.
  destruct (str_eqb a b) eqn:E1, (str_eqb b a) eqn:E2; auto.
  - apply str_eqb_eq in E1. subst. rewrite str_eqb_refl in E2. discriminate.
  - apply str_eqb_eq in E2. subst. rewrite str_eqb_refl in E1. discriminate.
Qed.

Lemma existsb_str_eqb x l : existsb (str_eqb x) l = true <-> In x l.
Proof.
  rewrite existsb_exists. split.
  - intros (y & Hy & E). apply str_eqb_eq in E. subst. assumption.
  - intros H. exists x. split; [assumption|apply str_eqb_refl].
Qed.

Lemma filter_twice {A} (f g : A -> bool) l :
  List.filter f (List.filter g l) = List.filter (fun x => g x && f x) l.
Proof.
  induction l as [|a l IH]; cbn [List.filter]; [reflexivity|].
  destruct (g a); cbn [List.filter andb]; [destruct (f a)|]; congruence.
Qed.

Lemma add_all_first_occurrences l : forall acc,
  add_all l acc = acc ++ List.filter (fresh_for acc) (first_occurrences l).
Proof.
  induction l as [|x r IH]; intros acc; cbn [add_all fold_left first_occurrences].
  - simpl. rewrite app_nil_r. reflexivity.
  - fold (add_all r (set_add x acc)). rewrite IH. unfold set_add.
    cbn [List.filter]. unfold fresh_for at 2.
    destruct (existsb (str_eqb x) acc) eqn:Hx; cbn [negb].
    + f_equal. rewrite filter_twice. apply List.filter_ext_in.
      intros y _. unfold fresh_for.
      destruct (existsb (str_eqb y) acc) eqn:Hy; cbn [negb].
      * rewrite andb_false_r. reflexivity.
      * rewrite andb_true_r.
        destruct (str_eqb x y) eqn:E; [|reflexivity].
        apply str_eqb_eq in E. subst. congruence.
    + rewrite <- app_assoc. cbn [app]. do 2 f_equal.
      rewrite filter_twice. apply List.filter_ext_in.
      intros y _. unfold fresh_for. rewrite existsb_app. cbn [existsb].
      rewrite orb_false_r, negb_orb, (str_eqb_sym y x). apply andb_comm.
Qed.

Lemma first_occurrences_In l x : In x (first_occurrences l) <-> In x l.
Proof.
  induction l as [|y r IH]; cbn [first_occurrences]; [tauto|].
  cbn [In]. rewrite List.filter_In, IH.
  destruct (str_eqb y x) eqn:E.
  - apply str_eqb_eq in E. subst. cbn. intuition discriminate.
  - cbn. tauto.
Qed.

Lemma first_occurrences_NoDup l : List.NoDup (first_occurrences l).
Proof.
  induction l as [|y r IH]; cbn [first_occurrences]; constructor.
  - rewrite List.filter_In. intros [_ H]. rewrite str_eqb_refl in H. discriminate.
  - apply List.NoDup_filter. assumption.
Qed.

Lemma extractTags_first_occurrences texts :
  extractTags texts
  = first_occurrences (flat_map (fun t => tokens (content t)) texts).
Proof.
  rewrite extractTags_fold, add_all_first_occurrences. cbn [app].
  rewrite <- (List.filter_ext (fun _ => true)) by reflexivity.
  induction (first_occurrences _) as [|a l IH]; cbn; congruence.
Qed.

(** C6. [extractTags] returns, without duplicates and in the order of
    their first occurrence, the tokens that follow a [#] in the contents:
    each tag is a non-empty word of class code points (letters, numbers,
    [_], [-]) copied from a content where it stands right after a [#] and
    is followed by no further class code point. The content
    [hello #foo world #bar #foo] gives [foo; bar]. *)
Theorem extractTags_spec (texts : list TextVariant) :
  extractTags texts
    = first_occurrences (flat_map (fun t => tokens (content t)) texts)
  /\ List.NoDup (extractTags texts)
  /\ (forall tag, In tag (extractTags texts) ->
        tag <> [] /\ class_word tag /\
        exists t pre post,
          In t texts /\ content t = pre ++ 35 :: tag ++ post
          /\ fst (class_run post) = [])
  /\ (forall lang pron,
        extractTags [{| content := js "hello #foo world #bar #foo";
                        language := lang; pronunciation := pron |}]
        = [js "foo"; js "bar"]).
Proof.
  split; [apply extractTags_first_occurrences|].
  split; [rewrite extractTags_first_occurrences; apply first_occurrences_NoDup|].
  split.
  - intros tag. rewrite extractTags_first_occurrences, first_occurrences_In.
    rewrite in_flat_map. intros (t & Ht & Hin).
    destruct (tokens_shape _ _ Hin) as (Hne & Hw & pre & post & Hc & Hmax).
    repeat split; auto. exists t, pre, post. auto.
  - intros lang pron. reflexivity.
Qed.

End TagFacts.


Lemma trimStart_split s :
  exists sp, s = sp ++ trimStart s /\ Forall (fun c => is_space c = true) sp.
Proof.
  induction s as [|c s (sp & Hs & Hsp)]; cbn [trimStart].
  - exists []. auto.
  - destruct (is_space c) eqn:E.
    + exists (c :: sp). cbn [app]. split; [congruence|constructor; assumption].
    + exists []. auto.
Qed.

Lemma trimEnd_split s :
  exists sp, s = trimEnd s ++ sp /\ Forall (fun c => is_space c = true) sp.
Proof.
  unfold trimEnd. destruct (trimStart_split (rev s)) as (sp & Hs & Hsp).
  exists (rev sp). split.
  - rewrite <- rev_app_distr, <- Hs, rev_involutive. reflexivity.
  - apply List.Forall_rev. assumption.
Qed.

Lemma words_from_spaces sp :
  Forall (fun c => is_space c = true) sp ->
  forall word, words_from word sp = match word with [] => [] | _ => [word] end.
Proof.
  induction 1 as [|c sp Hc _ IH]; intros word; cbn [words_from]; [reflexivity|].
  rewrite Hc, IH. destruct word; reflexivity.
Qed.

Lemma words_from_app_spaces sp s :
  Forall (fun c => is_space c = true) sp ->
  forall word, words_from word (s ++ sp) = words_from word s.
Proof.
  intros Hsp. induction s as [|c s IH]; intros word; cbn [app words_from].
  - apply words_from_spaces. assumption.
  - rewrite !IH. reflexivity.
Qed.

Lemma words_spaces_app sp s :
  Forall (fun c => is_space c = true) sp -> words (sp ++ s) = words s.
Proof.
  unfold words. induction 1 as [|c sp Hc _ IH]; cbn [app words_from]; [reflexivity|].
  rewrite Hc. assumption.
Qed.

Lemma words_trim s : words (trim s) = words s.
Proof.
  unfold trim.
  destruct (trimEnd_split (trimStart s)) as (sp1 & H1 & Hsp1).
  destruct (trimStart_split s) as (sp2 & H2 & Hsp2).
  rewrite H2 at 2. rewrite words_spaces_app by assumption.
  rewrite H1 at 2. unfold words. rewrite words_from_app_spaces by assumption.
  reflexivity.
Qed.

Lemma query_terms_words_from s : forall piece in_run,
  (in_run = true -> piece = []) ->
  List.filter (fun t : list Z => match t with [] => false | _ => true end)
    (split_from piece in_run s)
  = words_from piece s.
Proof.
  induction s as [|c s IH]; intros piece in_run Hrun; cbn [split_from words_from].
  - cbn. destruct piece; reflexivity.
  - destruct (is_space c).
    + destruct in_run.
      * rewrite (Hrun eq_refl). apply IH. auto.
      * cbn [List.filter]. rewrite IH by auto. destruct piece; reflexivity.
    + apply IH. discriminate.
Qed.

Lemma query_terms_words s : query_terms s = words s.
Proof. apply query_terms_words_from. discriminate. Qed.

Lemma startsWith_hash t : startsWith [35] t = is_hash_term t.
Proof.
  destruct t as [|c t]; cbn [startsWith is_hash_term]; [reflexivity|].
  unfold unit_eqb. rewrite andb_true_r. apply Z.eqb_sym.
Qed.

Lemma last_cons_cons {A} (x y : A) l : last (x :: y :: l) = last (y :: l).
Proof. reflexivity. Qed.

Lemma classify_fold terms : forall tagFilter textTerms,
  fold_left classify_term terms (tagFilter, textTerms)
  = (match stated_tag_filter terms with
     | Some t => Some t
     | None => tagFilter
     end,
     textTerms ++ plain_terms terms).
Proof.
  unfold stated_tag_filter, plain_terms.
  induction terms as [|t terms IH]; intros tagFilter textTerms; cbn [fold_left].
  - cbn. rewrite app_nil_r. reflexivity.
  - unfold classify_term at 2. rewrite startsWith_hash. cbn [List.filter fst snd].
    destruct (is_hash_term t) eqn:E; cbn [negb]; rewrite IH.
    + f_equal. destruct (List.filter is_hash_term terms) as [|h hs] eqn:Hf.
      * reflexivity.
      * rewrite last_cons_cons.
        destruct (last (h :: hs)) eqn:Hl; [reflexivity|].
        apply last_None in Hl. discriminate.
    + rewrite <- app_assoc. reflexivity.
Qed.

Lemma sort_insert_ext {A} (c1 c2 : A -> A -> Z) x l :
  (forall a b, c1 a b = c2 a b) -> sort_insert c1 x l = sort_insert c2 x l.
Proof.
  intros H. induction l as [|y l IH]; cbn [sort_insert]; [reflexivity|].
  rewrite H, IH. reflexivity.
Qed.

Lemma js_sort_ext {A} (c1 c2 : A -> A -> Z) l :
  (forall a b, c1 a b = c2 a b) -> js_sort c1 l = js_sort c2 l.
Proof.
  intros H. induction l as [|x l IH]; cbn [js_sort fold_right]; [reflexivity|].
  fold (js_sort c1 l) (js_sort c2 l). rewrite IH. apply sort_insert_ext, H.
Qed.

Lemma sorted_weaken {A} (R S : A -> A -> Prop) l :
  (forall a b, R a b -> S a b) -> StronglySorted R l -> StronglySorted S l.
Proof.
  intros H. induction 1 as [|a l Hs IH Ha]; constructor; [assumption|].
  eapply List.Forall_impl; [|exact Ha]. auto.
Qed.

Lemma newest_first_sorted l :
  StronglySorted (fun a b => Post.createdAt b <= Post.createdAt a)
    (js_sort newest_first l).
Proof.
  rewrite (js_sort_ext _ (by_key (fun p => - Post.createdAt p))).
  - eapply sorted_weaken; [|apply js_sort_sorted].
    cbn. intros; lia.
  - intros a b. unfold newest_first, by_key. lia.
Qed.

Section SearchFacts.
Context {U : Unicode}.

Lemma runSearch_coded input s : runSearch input s = search_as_coded input s.
Proof.
  unfold runSearch, search_as_coded.
  rewrite query_terms_words, words_trim.
  rewrite classify_fold. cbn [app].
  unfold effective_tag_filter.
  set (terms := words input).
  fold newest_first. f_equal.
  assert (Htext : forall l,
    match plain_terms terms with
    | [] => l
    | _ :: _ =>
        List.filter
          (fun p => forallb
             (fun term => existsb (fun t => includes term (toLowerCase (content t)))
                            (Post.texts p))
             (map toLowerCase (plain_terms terms))) l
    end
    = List.filter
        (fun p => forallb
           (fun term => existsb (fun t => contains_ignoring_case term (content t))
                          (Post.texts p))
           (plain_terms terms)) l).
  { intros l. destruct (plain_terms terms) as [|t ts] eqn:E.
    - cbn [forallb]. induction l as [|a l IH]; cbn [List.filter]; congruence.
    - apply List.filter_ext. intros p. clear E.
      induction (t :: ts) as [|x xs IH]; cbn [map forallb]; [reflexivity|].
      rewrite IH. reflexivity. }
  rewrite Htext.
  destruct (stated_tag_filter terms) as [[|c tag]|] eqn:Hf; cbn [truthy default];
    rewrite !filter_twice; apply List.filter_ext; intros p; unfold search_hit;
    rewrite ?andb_true_r, ?andb_assoc; reflexivity.
Qed.

End SearchFacts.


Lemma payload_length n : 0 <= n -> str_length (payload n) = n.
Proof. intros H. unfold payload, str_length. rewrite length_replicate. lia. Qed.

Lemma evict_loop_over fuel d :
  STORAGE_LIMIT <= payload_size (images d) ->
  evict_loop (S fuel) d
  = match evict_body d with
    | None => d
    | Some d' => evict_loop fuel d'
    end.
Proof.
  intros H. cbn [evict_loop]. rewrite evict_step_over by assumption. reflexivity.
Qed.

Lemma two_images_first_turn P Q :
  STORAGE_LIMIT <= str_length P + str_length Q ->
  evict_step (two_images P Q)
  = Some (set_posts [strip postA; postB] (two_images P Q)).
Proof.
  intros Hbig. rewrite evict_step_over; [reflexivity|].
  cbn [images two_images payload_size fold_right snd]. lia.
Qed.

Lemma two_images_evicted P Q :
  STORAGE_LIMIT <= str_length P + str_length Q ->
  evict_loop 3 (two_images P Q)
  = set_posts [strip postA; strip postB] (two_images P Q).
Proof.
  intros Hbig.
  assert (Hpay : forall ps, STORAGE_LIMIT <=
            payload_size (images (set_posts ps (two_images P Q)))).
  { intros ps. cbn [images set_posts two_images payload_size fold_right snd]. lia. }
  rewrite evict_loop_over by apply (Hpay [postA; postB]).
  change (evict_body (two_images P Q))
    with (Some (set_posts [strip postA; postB] (two_images P Q))).
  cbv iota. rewrite evict_loop_over by apply Hpay.
  change (evict_body (set_posts [strip postA; postB] (two_images P Q)))
    with (Some (set_posts [strip postA; strip postB] (two_images P Q))).
  cbv iota. rewrite evict_loop_over by apply Hpay.
  reflexivity.
Qed.

Lemma one_image_evicted P :
  STORAGE_LIMIT <= str_length P ->
  evict_loop 2 (one_image P) = set_posts [strip postA] (one_image P).
Proof.
  intros Hbig.
  assert (Hpay : forall ps, STORAGE_LIMIT <=
            payload_size (images (set_posts ps (one_image P)))).
  { intros ps. cbn [images set_posts one_image payload_size fold_right snd]. lia. }
  rewrite evict_loop_over by apply (Hpay [postA]).
  change (evict_body (one_image P))
    with (Some (set_posts [strip postA] (one_image P))).
  cbv iota. rewrite evict_loop_over by apply Hpay.
  reflexivity.
Qed.

Lemma empty_id_kept P :
  STORAGE_LIMIT <= str_length P -> evict_loop 2 (empty_id P) = empty_id P.
Proof.
  intros Hbig. rewrite evict_loop_over; [reflexivity|].
  cbn [images empty_id payload_size fold_right snd]. lia.
Qed.

Lemma empty_id_first_turn P Q :
  STORAGE_LIMIT <= str_length P + str_length Q ->
  evict_step (empty_id_first P Q)
  = Some (set_posts [postE; strip postB] (empty_id_first P Q)).
Proof.
  intros Hbig. rewrite evict_step_over; [reflexivity|].
  cbn [images empty_id_first payload_size fold_right snd]. lia.
Qed.

Lemma payload_fits_not : STORAGE_LIMIT <= str_length (payload (6 * 1024 * 1024)).
Proof. rewrite payload_length by lia. unfold STORAGE_LIMIT. lia. Qed.

Lemma payloads_fit_not :
  STORAGE_LIMIT
  <= str_length (payload (2 * 1024 * 1024)) + str_length (payload (4 * 1024 * 1024)).
Proof. rewrite !payload_length by lia. unfold STORAGE_LIMIT. lia. Qed.

Lemma two_images_persisted P Q :
  STORAGE_LIMIT <= str_length P + str_length Q ->
  posts (data (persistData (two_images_state P Q))) = [strip postA; strip postB]
  /\ images (data (persistData (two_images_state P Q)))
     = images (data (two_images_state P Q))
  /\ Post.imageId (strip postB) = None.
Proof.
  intros Hbig. rewrite persistData_data.
  cbn [data two_images_state posts two_images length].
  rewrite two_images_evicted by assumption. repeat split.
Qed.

Lemma one_image_persisted P :
  STORAGE_LIMIT <= str_length P ->
  obj_get imageX (images (data (persistData (one_image_state P)))) = Some P
  /\ Forall (fun p => Post.imageId p <> Some imageX)
       (posts (data (persistData (one_image_state P))))
  /\ Forall (fun r => Reply.imageId r <> Some imageX)
       (replies (data (persistData (one_image_state P)))).
Proof.
  intros Hbig. rewrite persistData_data.
  cbn [data one_image_state posts one_image length].
  rewrite one_image_evicted by assumption.
  split; [reflexivity|]. split; repeat constructor. discriminate.
Qed.

Lemma empty_id_persisted P :
  STORAGE_LIMIT <= str_length P ->
  ~ (str_length (stringify (data (persistData (empty_id_state_of P))))
     <= STORAGE_LIMIT
     \/ Forall (fun p => Post.imageId p = None)
          (posts (data (persistData (empty_id_state_of P))))).
Proof.
  intros Hbig. rewrite persistData_data.
  cbn [data empty_id_state_of posts empty_id length].
  rewrite empty_id_kept by assumption.
  pose proof (stringify_length (empty_id P)) as Hlen.
  cbn [images empty_id payload_size fold_right snd] in Hlen.
  intros [Hfit|Hnone]; [lia|].
  apply Forall_inv in Hnone. discriminate.
Qed.

(** C1 (code defect). The scenario of the specification: post A (older)
    holds image X with a 2 MB payload, post B holds image Y with a 4 MB
    payload, and B has just been pushed. [persistData] does not stop after
    A: [removeImageIfUnused] runs while A still carries the id, so the
    payload of X stays in [images], the data stays over the limit, and B
    loses its image as well. Both posts end with [imageId = null] and
    [imageRemoved = true]; both payloads are still stored. *)
Theorem scenario_strips_both_posts :
  posts (data (persistData scenario)) = [strip postA; strip postB]
  /\ images (data (persistData scenario)) = images (data scenario)
  /\ Post.imageId (strip postB) = None.
Proof. exact (two_images_persisted _ _ payloads_fit_not). Qed.

(** C2 (code defect). One post with a 6 MB image: after the persist the
    eviction has taken the post's reference, no post and no reply
    references the image, and its payload is still in [images]: an orphan
    that nothing will remove. *)
Theorem evicted_payload_left_orphan :
  obj_get imageX (images (data (persistData lone_image)))
  = Some (payload (6 * 1024 * 1024))
  /\ Forall (fun p => Post.imageId p <> Some imageX)
       (posts (data (persistData lone_image)))
  /\ Forall (fun r => Reply.imageId r <> Some imageX)
       (replies (data (persistData lone_image))).
Proof. exact (one_image_persisted _ payload_fits_not). Qed.

(** C3 (amended). After [persistData] the slot holds the serialization of
    the final data, and either that serialization is within
    [STORAGE_LIMIT] or no post has a truthy (non-null and non-empty)
    [imageId] left; an over-limit state is stored only when no candidate
    remains. *)
Theorem save_within_budget_or_exhausted s :
  let s' := persistData s in
  stored s' = Some (stringify (data s'))
  /\ (str_length (stringify (data s')) <= STORAGE_LIMIT
      \/ Forall (fun p => truthy (Post.imageId p) = false) (posts (data s')))
  /\ (STORAGE_LIMIT < str_length (stringify (data s')) ->
      candidates (data s') = []).
Proof.
  cbn zeta. split; [reflexivity|].
  rewrite persistData_data.
  destruct (evict_loop_run (S (length (posts (data s)))) (data s))
    as (n & _ & Hrun).
  { pose proof (image_count_le (data s)). lia. }
  apply loop_run_final, evict_step_None in Hrun.
  split.
  - destruct Hrun as [H|H]; [left; assumption|right; apply candidates_nil, H].
  - intros Hover. destruct Hrun as [H|H]; [lia|assumption].
Qed.

(** Against C3 as stated: a post whose image is stored under the empty
    id is no candidate; the data stays over the limit and the post keeps
    its non-null [imageId]. *)
Lemma save_can_leave_a_non_null_image :
  ~ (str_length (stringify (data (persistData empty_id_state))) <= STORAGE_LIMIT
     \/ Forall (fun p => Post.imageId p = None)
          (posts (data (persistData empty_id_state)))).
Proof. exact (empty_id_persisted _ payload_fits_not). Qed.

(** C4 (amended). A turn of the eviction loop takes the image of the post
    that is oldest by [createdAt] among the posts with a truthy (non-null,
    non-empty) [imageId], the first such post of the collection on a tie;
    only that post changes. Replies are left as they are, and an image that
    a reply references keeps its payload. *)
Theorem eviction_selects_oldest d d' :
  evict_step d = Some d' ->
  exists i target,
    oldest_with_image (posts d) i target
    /\ posts d' = alter strip i (posts d)
    /\ replies d' = replies d
    /\ forall k r, In r (replies d) -> Reply.imageId r = Some k ->
         obj_get k (images d') = obj_get k (images d).
Proof.
  intros Hstep. destruct (evict_step_frame _ _ Hstep) as [_ Himg].
  apply evict_step_Some in Hstep as [_ Hbody].
  apply evict_body_Some in Hbody as (i & target & Hold & ->).
  exists i, target. split; [exact Hold|]. split; [reflexivity|].
  split; [reflexivity|]. intros k r _ _. reflexivity.
Qed.

(** The first turn of the scenario of C1. *)
Lemma eviction_selects_oldest_witness :
  exists i target,
    oldest_with_image (posts (data scenario)) i target
    /\ posts (set_posts [strip postA; postB] (data scenario))
       = alter strip i (posts (data scenario))
    /\ replies (set_posts [strip postA; postB] (data scenario))
       = replies (data scenario)
    /\ forall k r, In r (replies (data scenario)) -> Reply.imageId r = Some k ->
         obj_get k (images (set_posts [strip postA; postB] (data scenario)))
         = obj_get k (images (data scenario)).
Proof.
  apply (eviction_selects_oldest (data scenario)).
  exact (two_images_first_turn _ _ payloads_fit_not).
Defined.

Lemma empty_id_first_skipped P Q :
  STORAGE_LIMIT <= str_length P + str_length Q ->
  exists d',
    evict_step (empty_id_first P Q) = Some d'
    /\ ~ exists i target,
           oldest_non_null (posts (empty_id_first P Q)) i target
           /\ posts d' = alter strip i (posts (empty_id_first P Q)).
Proof.
  intros Hbig. eexists. split; [apply empty_id_first_turn, Hbig|].
  intros (i & target & (Hi & Hnn & Hmin) & Hposts).
  destruct (Hmin O postE eq_refl ltac:(discriminate)) as [Hle Htie].
  destruct i as [|[|i]]; try discriminate.
  injection Hi as <-. cbn in Hle. lia.
Qed.

(** Against C4 as stated: the oldest post with a non-null [imageId]
    carries the empty id; the turn passes it over and takes the image of
    the younger post. *)
Lemma eviction_skips_an_older_non_null_image :
  exists d',
    evict_step empty_id_first_data = Some d'
    /\ ~ exists i target,
           oldest_non_null (posts empty_id_first_data) i target
           /\ posts d' = alter strip i (posts empty_id_first_data).
Proof. exact (empty_id_first_skipped _ _ payloads_fit_not). Qed.

Lemma evict_step_leaves d :
  evict_step d = None <->
  str_length (stringify d) <= STORAGE_LIMIT
  \/ Forall (fun p => truthy (Post.imageId p) = false) (posts d).
Proof.
  split.
  - intros H. apply evict_step_None in H as [H|H]; [left; exact H|].
    right. apply candidates_nil, H.
  - intros [Hfit|Hnone]; unfold evict_step.
    + destruct (Z.gtb_spec (str_length (stringify d)) STORAGE_LIMIT); [lia|reflexivity].
    + destruct (_ >? _); [|reflexivity].
      unfold evict_body. apply candidates_nil in Hnone. rewrite Hnone. reflexivity.
Qed.

Lemma empty_id_left P :
  STORAGE_LIMIT <= str_length P ->
  evict_step (empty_id P) = None
  /\ ~ (str_length (stringify (empty_id P)) <= STORAGE_LIMIT
        \/ image_count (empty_id P) = O).
Proof.
  intros Hbig. split.
  - apply evict_step_leaves. right. repeat constructor.
  - pose proof (stringify_length (empty_id P)) as Hlen.
    cbn [images empty_id payload_size fold_right snd] in Hlen.
    intros [Hfit|Hnone]; [lia|discriminate Hnone].
Qed.

(** C10 (amended). The eviction loop terminates. The loop is left exactly
    when the data fits or no post has a truthy (non-null and non-empty)
    [imageId]; otherwise a turn is taken. A turn sets the [imageId] of the
    selected post to null and changes no other post, so the number of
    posts with a non-null [imageId] drops by exactly one. The run from any
    data therefore has at most as many turns as there are such posts, it
    ends where the loop is left, and it is what the loop computes with any
    fuel above that number and what [enforceStorageLimit] stores. *)
Theorem eviction_terminates d :
  (evict_step d = None <->
   str_length (stringify d) <= STORAGE_LIMIT
   \/ Forall (fun p => truthy (Post.imageId p) = false) (posts d))
  /\ (STORAGE_LIMIT < str_length (stringify d) ->
      forall p, In p (posts d) -> truthy (Post.imageId p) = true ->
      exists d', evict_step d = Some d')
  /\ (forall d', evict_step d = Some d' ->
      exists i target,
        posts d !! i = Some target /\ truthy (Post.imageId target) = true
        /\ posts d' = alter strip i (posts d)
        /\ Post.imageId (strip target) = None
        /\ S (image_count d') = image_count d)
  /\ (exists n d',
        (n <= image_count d)%nat /\ loop_run d n d' /\ evict_step d' = None
        /\ (forall fuel, (image_count d < fuel)%nat -> evict_loop fuel d = d')
        /\ (forall s, data s = d ->
              data (enforceStorageLimit s) = d'
              /\ stored (enforceStorageLimit s) = Some (stringify d'))).
Proof.
  pose proof (image_count_le d) as Hle.
  destruct (evict_loop_run (S (length (posts d))) d ltac:(lia)) as (n & Hn & Hrun).
  split; [apply evict_step_leaves|]. split; [|split].
  - intros Hover p Hin Hp.
    destruct (evict_step d) as [d'|] eqn:Hstep; [exists d'; reflexivity|].
    apply evict_step_leaves in Hstep as [Hfit|Hnone]; [lia|].
    rewrite List.Forall_forall in Hnone. rewrite (Hnone p Hin) in Hp. discriminate.
  - intros d' Hstep.
    pose proof (evict_step_count _ _ Hstep) as Hcount.
    apply evict_step_Some in Hstep as [_ Hbody].
    apply evict_body_Some in Hbody as (i & target & (Hi & Ht & _) & ->).
    exists i, target. repeat split; assumption.
  - exists n, (evict_loop (S (length (posts d))) d).
    split; [exact Hn|]. split; [exact Hrun|].
    split; [exact (loop_run_final _ _ _ Hrun)|]. split.
    + intros fuel Hfuel.
      destruct (evict_loop_run fuel d Hfuel) as (m & _ & Hrun').
      apply (loop_run_deterministic _ _ _ Hrun' _ _ Hrun).
    + intros s <-. split; reflexivity.
Qed.

(** Against C10 as stated: with one post whose image is stored under the
    empty id the loop is left although the data does not fit and a post
    with a non-null [imageId] remains. *)
Lemma eviction_exits_with_a_non_null_image :
  evict_step (data empty_id_state) = None
  /\ ~ (str_length (stringify (data empty_id_state)) <= STORAGE_LIMIT
        \/ image_count (data empty_id_state) = O).
Proof. exact (empty_id_left _ payload_fits_not). Qed.


(** Deleting *)

Lemma findIndex_Some {A} (f : A -> bool) l i :
  findIndex f l = Some i ->
  exists x, l !! i = Some x /\ f x = true
    /\ forall j y, (j < i)%nat -> l !! j = Some y -> f y = false.
Proof.
  revert i. induction l as [|a l IH]; intros i; cbn [findIndex]; [discriminate|].
  destruct (f a) eqn:Ha.
  - intros [= <-]. exists a. repeat split; auto. intros j y Hj. lia.
  - destruct (findIndex f l) as [k|]; [|discriminate].
    intros [= <-]. destruct (IH k eq_refl) as (x & Hx & Hfx & Hfirst).
    exists x. repeat split; auto.
    intros [|j] y Hj Hy; cbn in Hy; [congruence|]. apply (Hfirst j); [lia|assumption].
Qed.

Lemma findIndex_None {A} (f : A -> bool) l :
  findIndex f l = None -> Forall (fun x => f x = false) l.
Proof.
  induction l as [|a l IH]; cbn [findIndex]; [constructor|].
  destruct (f a) eqn:Ha; [discriminate|].
  destruct (findIndex f l); [discriminate|]. constructor; auto.
Qed.

(** Soft delete: the half of [deletePost] that holds as specified. *)
Lemma deletePost_soft id s i :
  findIndex (fun p => Post.id p =? id) (posts (data s)) = Some i ->
  existsb (fun r => Reply.postId r =? id) (replies (data s)) = true ->
  let s' := deletePost id true s in
  replies (data s') = replies (data s)
  /\ length (posts (data s')) = length (posts (data s))
  /\ exists p p', posts (data s) !! i = Some p /\ posts (data s') !! i = Some p'
       /\ Post.id p' = id /\ Post.isDeleted p' = true
       /\ Post.texts p' = [deleted_text] /\ Post.tags p' = Post.tags p.
Proof.
  intros Hfind Hreplies. cbn zeta. unfold deletePost. rewrite Hfind, Hreplies.
  cbn [negb].
  set (d' := set_posts _ _).
  destruct (persistData_frame (set_data d' s)) as (_ & Hr & _ & Hp).
  cbn [data set_data] in Hr, Hp.
  destruct (findIndex_Some _ _ _ Hfind) as (p & Hi & Hid & _).
  apply Z.eqb_eq in Hid.
  assert (Hi' : posts d' !! i
                = Some (Post.set_texts [deleted_text] (Post.set_isDeleted true p))).
  { unfold d'. cbn [posts set_posts].
    rewrite !list_lookup_alter_eq, Hi. reflexivity. }
  destruct (without_image_lookup _ _ _ _ Hp Hi') as (p' & Hp' & Hw).
  apply without_image_texts in Hw as (Ht & Hg & Hd & Hi2 & _ & _).
  split; [exact Hr|]. split.
  - apply (f_equal (@length _)) in Hp. rewrite !length_map in Hp.
    rewrite Hp. unfold d'. cbn [posts set_posts]. rewrite !length_alter. reflexivity.
  - cbn in Ht, Hg, Hd, Hi2. exists p, p'. repeat split; auto. congruence.
Qed.

(** Hard delete: the post goes, every payload stays. *)
Lemma deletePost_hard id s i :
  findIndex (fun p => Post.id p =? id) (posts (data s)) = Some i ->
  existsb (fun r => Reply.postId r =? id) (replies (data s)) = false ->
  let s' := deletePost id true s in
  Forall (fun p => Post.id p <> id) (posts (data s'))
  /\ images (data s') = images (data s).
Proof.
  intros Hfind Hreplies. cbn zeta. unfold deletePost. rewrite Hfind, Hreplies.
  cbn [negb].
  destruct (findIndex_Some _ _ _ Hfind) as (p & Hi & Hid & _).
  rewrite Hi.
  rewrite removeImageIfUnused_referenced
    by (apply list_elem_of_In, list_elem_of_lookup; eauto).
  set (d' := set_posts _ _).
  destruct (persistData_frame (set_data d' s)) as (_ & _ & _ & Hp).
  destruct (evict_loop_frame (S (length (posts d'))) d') as [_ Himg].
  rewrite persistData_data. cbn [data set_data] in *. split.
  - apply List.Forall_forall. intros q Hq.
    apply list_elem_of_In, list_elem_of_lookup in Hq as [j Hj].
    destruct (without_image_lookup _ _ _ _ (eq_sym Hp) Hj) as (q0 & Hq0 & Hw).
    apply without_image_texts in Hw as (_ & _ & _ & Hid' & _).
    rewrite <- Hid'.
    assert (Hin : In q0 (posts d')).
    { apply list_elem_of_In, list_elem_of_lookup. eauto. }
    unfold d' in Hin. cbn [posts set_posts] in Hin.
    apply List.filter_In in Hin as [_ Hne].
    apply negb_true_iff, Z.eqb_neq in Hne. exact Hne.
  - rewrite Himg. reflexivity.
Qed.

(** C7 (code defect). Hard delete of the only post, which has an image and
    no reply: the post is removed, but [removeImageIfUnused] ran while the
    post was still in [posts], so the payload that nothing references any
    more stays in [images]. *)
Theorem hard_delete_keeps_the_payload :
  let s' := deletePost 1 true gallery in
  posts (data s') = [] /\ replies (data s') = []
  /\ images (data s') = images (data gallery)
  /\ obj_get imageX (images (data s'))
     = Some (js "data:image/png;base64,iVBORw0KGgo=").
Proof. vm_compute. repeat split. Qed.

Section TagClaims.
Context {U : Unicode}.

(** C5 (code defect). Soft delete of a post tagged [foo] that has a
    reply: the texts become the empty placeholder, the tags are not
    recomputed and still read [foo], while [extractTags] of the cleared
    texts is empty. *)
Theorem soft_delete_keeps_stale_tags :
  let s' := deletePost 1 true thread in
  exists p, posts (data s') = [p]
    /\ Post.isDeleted p = true
    /\ Post.texts p = [deleted_text]
    /\ Post.tags p = [js "foo"]
    /\ extractTags (Post.texts p) = []
    /\ replies (data s') = [a_reply].
Proof.
  exists (Post.set_texts [deleted_text] (Post.set_isDeleted true tagged_post)).
  repeat split.
Qed.

(** C8 (amended). [runSearch] splits the trimmed query at white space; the
    last term that starts with [#] gives the tag filter, unless it is a
    bare [#], in which case there is no tag filter; a post is returned
    when it is not deleted, has a tag equal to the filter up to case, and
    every other term occurs, up to case, in the content of one of its
    texts; the results are ordered by [createdAt], newest first. The query
    [#travel sushi] (or [#travel SUSHI]) returns the posts tagged travel
    whose text contains sushi. *)
Theorem runSearch_spec input s :
  runSearch input s = search_as_coded input s
  /\ StronglySorted (fun a b => Post.createdAt b <= Post.createdAt a)
       (runSearch input s)
  /\ (forall p, In p (runSearch input s) <->
        In p (posts (data s))
        /\ search_hit (effective_tag_filter (words input))
             (plain_terms (words input)) p = true)
  /\ runSearch (js "#travel sushi") s
     = js_sort newest_first
         (List.filter
            (fun p =>
               negb (Post.isDeleted p)
               && existsb (fun tag => str_eqb (toLowerCase tag) (js "travel"))
                    (Post.tags p)
               && existsb (fun t => includes (js "sushi") (toLowerCase (content t)))
                    (Post.texts p))
            (posts (data s)))
  /\ runSearch (js "#travel SUSHI") s = runSearch (js "#travel sushi") s.
Proof.
  split; [apply runSearch_coded|].
  split; [rewrite runSearch_coded; apply newest_first_sorted|].
  split.
  - intros p. rewrite runSearch_coded. unfold search_as_coded. split.
    + intros H. eapply Permutation_in in H; [|apply js_sort_perm].
      apply List.filter_In in H. exact H.
    + intros H. eapply Permutation_in; [symmetry; apply js_sort_perm|].
      apply List.filter_In. exact H.
  - split.
    + rewrite runSearch_coded. unfold search_as_coded. f_equal.
      apply List.filter_ext. intros p.
      change (words (js "#travel sushi")) with [js "#travel"; js "sushi"].
      change (effective_tag_filter [js "#travel"; js "sushi"]) with (Some (js "travel")).
      change (plain_terms [js "#travel"; js "sushi"]) with [js "sushi"].
      unfold search_hit. cbn [forallb]. rewrite andb_true_r. reflexivity.
    + rewrite !runSearch_coded. unfold search_as_coded. f_equal.
Qed.

(** C9. A submission none of whose text blocks has content after trimming
    is rejected and leaves the state as it was; one with content is
    accepted, persisted, and has pushed the reply or the post, or updated
    the texts, tags and [updatedAt] of the edited entity. *)
Theorem submit_validation f e s :
  (Forall (fun b => trim (text_area b) = []) (text_blocks f) ->
   submit f e s = (Rejected, s))
  /\ (Exists (fun b => trim (text_area b) <> []) (text_blocks f) ->
      fst (submit f e s) = Submitted
      /\ stored (snd (submit f e s))
         = Some (stringify (data (snd (submit f e s))))
      /\ submitted f e s (snd (submit f e s))).
Proof. split; [apply submit_rejects|apply submit_accepts]. Qed.

End TagClaims.

(** Against C8 as stated: for the query [#] the last [#] term would
    filter on the empty tag, which no post has; the code applies no tag
    filter and returns the post. *)
Lemma bare_hash_is_no_filter :
  @runSearch asciiEngine (js "#") untagged = posts (data untagged)
  /\ @search_as_stated asciiEngine (js "#") untagged = []
  /\ @runSearch asciiEngine (js "#") untagged
     <> @search_as_stated asciiEngine (js "#") untagged.
Proof. vm_compute. repeat split. discriminate. Qed.


(* ================================================================= *)
(** * Further properties of the code *)

(** ** The image map *)

Lemma str_eqb_false a b : a <> b -> str_eqb a b = false.
Proof. intros H. apply str_eqb_neq. exact H. Qed.

Lemma obj_get_set_eq k v m : obj_get k (obj_set k v m) = Some v.
Proof.
  induction m as [|[a w] m IH]; cbn [obj_set obj_get].
  - rewrite str_eqb_refl. reflexivity.
  - destruct (str_eqb a k) eqn:E; cbn [obj_get]; rewrite E; auto.
Qed.

Lemma obj_get_set_ne k k' v m :
  k <> k' -> obj_get k' (obj_set k v m) = obj_get k' m.
Proof.
  intros Hne. induction m as [|[a w] m IH]; cbn [obj_set obj_get].
  - rewrite str_eqb_false by assumption. reflexivity.
  - destruct (str_eqb a k) eqn:E; cbn [obj_get].
    + apply str_eqb_eq in E. subst a. rewrite str_eqb_false by assumption.
      reflexivity.
    + rewrite IH. reflexivity.
Qed.

Lemma obj_get_delete_eq k m : obj_get k (obj_delete k m) = None.
Proof.
  unfold obj_delete.
  induction m as [|[a w] m IH]; cbn [List.filter obj_get fst]; [reflexivity|].
  destruct (str_eqb a k) eqn:E; cbn [negb obj_get]; [assumption|].
  rewrite E. assumption.
Qed.

Lemma obj_get_In k v m :
  List.NoDup (map fst m) -> In (k, v) m -> obj_get k m = Some v.
Proof.
  induction m as [|[a w] m IH]; cbn [map fst In obj_get]; [tauto|].
  intros Hnd [Heq|Hin].
  - injection Heq as -> ->. rewrite str_eqb_refl. reflexivity.
  - apply List.NoDup_cons_iff in Hnd as [Hnotin Hnd].
    destruct (str_eqb a k) eqn:E; [|auto].
    apply str_eqb_eq in E. subst a. contradict Hnotin.
    apply in_map_iff. exists (k, v). auto.
Qed.

Lemma obj_get_Some_In k v m : obj_get k m = Some v -> In (k, v) m.
Proof.
  induction m as [|[a w] m IH]; cbn [obj_get In]; [discriminate|].
  destruct (str_eqb a k) eqn:E.
  - apply str_eqb_eq in E. subst a. intros [= ->]. auto.
  - auto.
Qed.

Lemma obj_set_keys k v m :
  In k (map fst m) -> map fst (obj_set k v m) = map fst m.
Proof.
  induction m as [|[a w] m IH]; cbn [map fst In obj_set]; [tauto|].
  intros Hin. destruct (str_eqb a k) eqn:E; cbn [map fst]; [reflexivity|].
  f_equal. apply IH. destruct Hin as [->|Hin]; [|assumption].
  rewrite str_eqb_refl in E. discriminate.
Qed.

Lemma obj_set_new_keys k v m :
  ~ In k (map fst m) -> obj_set k v m = m ++ [(k, v)].
Proof.
  induction m as [|[a w] m IH]; cbn [map fst In obj_set]; [reflexivity|].
  intros Hnotin. destruct (str_eqb a k) eqn:E.
  - apply str_eqb_eq in E. subst a. tauto.
  - cbn [app]. f_equal. apply IH. tauto.
Qed.

Lemma obj_set_NoDup k v m :
  List.NoDup (map fst m) -> List.NoDup (map fst (obj_set k v m)).
Proof.
  intros Hnd. destruct (decide (k ∈ map fst m)) as [Hin|Hnotin];
    rewrite list_elem_of_In in *.
  - rewrite obj_set_keys by assumption. assumption.
  - rewrite obj_set_new_keys by assumption. rewrite map_app. cbn [map fst].
    apply NoDup_ListNoDup, NoDup_app. repeat split.
    + apply NoDup_ListNoDup. assumption.
    + intros x Hx Hx'. apply list_elem_of_In in Hx.
      apply list_elem_of_singleton in Hx'. subst x. contradiction.
    + apply NoDup_singleton.
Qed.

Lemma obj_delete_NoDup k m :
  List.NoDup (map fst m) -> List.NoDup (map fst (obj_delete k m)).
Proof.
  unfold obj_delete. induction m as [|[a w] m IH]; cbn [map fst List.filter];
    [auto|].
  intros Hnd. apply List.NoDup_cons_iff in Hnd as [Hnotin Hnd].
  destruct (negb (str_eqb a k)); cbn [map fst]; [|auto].
  constructor; [|auto]. intros Hin. apply Hnotin.
  apply in_map_iff in Hin as (kv & Hk & Hin). apply List.filter_In in Hin as [Hin _].
  apply in_map_iff. eauto.
Qed.

(** ** [ensureImageId] *)

Lemma find_payload_set url fresh m :
  List.find (fun kv : list Z * list Z => str_eqb (snd kv) url) m = None ->
  List.find (fun kv : list Z * list Z => str_eqb (snd kv) url) (obj_set fresh url m)
  = Some (fresh, url).
Proof.
  induction m as [|[a w] m IH]; cbn [obj_set List.find snd].
  - rewrite str_eqb_refl. reflexivity.
  - destruct (str_eqb w url) eqn:Ew; [discriminate|]. intros Hnone.
    destruct (str_eqb a fresh) eqn:Ea; cbn [List.find snd].
    + rewrite str_eqb_refl. apply str_eqb_eq in Ea. subst a. reflexivity.
    + rewrite Ew. auto.
Qed.

(** X1. The id [ensureImageId] returns maps to the payload it was given,
    whether the payload was already stored or has just been inserted. *)
Theorem ensureImageId_lookup url fresh d :
  List.NoDup (map fst (images d)) ->
  obj_get (fst (ensureImageId url fresh d))
    (images (snd (ensureImageId url fresh d))) = Some url.
Proof.
  intros Hnd. unfold ensureImageId.
  destruct (List.find _ (images d)) as [[k v]|] eqn:Hfind; cbn [fst snd].
  - apply List.find_some in Hfind as [Hin Heq]. cbn [snd] in Heq.
    apply str_eqb_eq in Heq. subst v. apply obj_get_In; assumption.
  - cbn [images set_images]. apply obj_get_set_eq.
Qed.

Lemma ensureImageId_lookup_witness :
  obj_get (fst (ensureImageId (js "data:,new") (js "img-9") (data sample)))
    (images (snd (ensureImageId (js "data:,new") (js "img-9") (data sample))))
  = Some (js "data:,new").
Proof.
  apply ensureImageId_lookup. vm_compute. repeat constructor; cbn; tauto.
Defined.

(** X2. Deduplication: asking again for the id of the same payload returns
    the same id and changes nothing, whatever id would have been minted
    the second time. *)
Theorem ensureImageId_idempotent url fresh fresh' d :
  ensureImageId url fresh' (snd (ensureImageId url fresh d))
  = ensureImageId url fresh d.
Proof.
  unfold ensureImageId.
  destruct (List.find _ (images d)) as [[k v]|] eqn:Hfind; cbn [fst snd].
  - rewrite Hfind. reflexivity.
  - cbn [images set_images]. rewrite (find_payload_set _ _ _ Hfind). reflexivity.
Qed.

(** X3. [ensureImageId] touches nothing but the entry of the id it
    returns: every other id keeps its payload, the ids stay distinct keys,
    and posts, replies, version and counter are as before. *)
Theorem ensureImageId_frame_images url fresh d :
  let i := fst (ensureImageId url fresh d) in
  let d' := snd (ensureImageId url fresh d) in
  (forall k, k <> i -> obj_get k (images d') = obj_get k (images d))
  /\ (List.NoDup (map fst (images d)) -> List.NoDup (map fst (images d')))
  /\ posts d' = posts d /\ replies d' = replies d
  /\ lastId d' = lastId d /\ version d' = version d.
Proof.
  cbn zeta. unfold ensureImageId.
  destruct (List.find _ (images d)) as [[k v]|] eqn:Hfind; cbn [fst snd].
  - repeat split; auto.
  - cbn [images set_images posts replies lastId version]. repeat split.
    + intros k Hk. apply obj_get_set_ne. congruence.
    + apply obj_set_NoDup.
Qed.

(** ** [removeImageIfUnused] *)

(** ** [removeImageIfUnused] *)

(** X4. An image that a post or a reply references is never released,
    whichever id the release is asked for; the release changes nothing
    but the image map. *)
Theorem release_keeps_referenced i d k :
  referenced k d ->
  obj_get k (images (removeImageIfUnused i d)) = obj_get k (images d)
  /\ posts (removeImageIfUnused i d) = posts d
  /\ replies (removeImageIfUnused i d) = replies d
  /\ lastId (removeImageIfUnused i d) = lastId d.
Proof.
  intros Href. split; [apply removeImageIfUnused_keeps; exact Href|].
  destruct (removeImageIfUnused_frame i d) as (_ & Hp & Hr & Hl). auto.
Qed.

Lemma release_keeps_referenced_witness :
  obj_get imageX (images (removeImageIfUnused (Some imageX) (data gallery)))
  = obj_get imageX (images (data gallery))
  /\ posts (removeImageIfUnused (Some imageX) (data gallery)) = posts (data gallery)
  /\ replies (removeImageIfUnused (Some imageX) (data gallery))
     = replies (data gallery)
  /\ lastId (removeImageIfUnused (Some imageX) (data gallery))
     = lastId (data gallery).
Proof.
  apply release_keeps_referenced. left.
  exists (image_post 1 1700000000000 "sunset" (Some imageX)).
  split; [left; reflexivity|reflexivity].
Defined.

Lemma unreferenced_unused k d :
  ~ referenced k d ->
  existsb (fun p => opt_str_eqb (Post.imageId p) (Some k)) (posts d)
  || existsb (fun r => opt_str_eqb (Reply.imageId r) (Some k)) (replies d) = false.
Proof.
  intros Hno. apply orb_false_iff. split.
  - destruct (existsb _ (posts d)) eqn:E; [|reflexivity].
    apply existsb_exists in E as (p & Hin & Heq). apply opt_str_eqb_eq in Heq.
    contradict Hno. left. eauto.
  - destruct (existsb _ (replies d)) eqn:E; [|reflexivity].
    apply existsb_exists in E as (r & Hin & Heq). apply opt_str_eqb_eq in Heq.
    contradict Hno. right. eauto.
Qed.

(** X5. Releasing a non-empty id that no post and no reply references
    deletes its payload and no other; a null or empty id is ignored. *)
Theorem release_removes_unreferenced c k d :
  ~ referenced (c :: k) d ->
  obj_get (c :: k) (images (removeImageIfUnused (Some (c :: k)) d)) = None
  /\ (forall k', k' <> c :: k ->
        obj_get k' (images (removeImageIfUnused (Some (c :: k)) d))
        = obj_get k' (images d))
  /\ removeImageIfUnused None d = d
  /\ removeImageIfUnused (Some []) d = d.
Proof.
  intros Hno. unfold removeImageIfUnused at 1 2.
  rewrite (unreferenced_unused _ _ Hno). cbn [negb images set_images].
  split; [apply obj_get_delete_eq|]. split; [|split; reflexivity].
  intros k' Hne. apply obj_get_delete_ne. congruence.
Qed.

Lemma release_removes_unreferenced_witness :
  obj_get imageX (images (removeImageIfUnused (Some imageX) (data sample))) = None
  /\ (forall k', k' <> imageX ->
        obj_get k' (images (removeImageIfUnused (Some imageX) (data sample)))
        = obj_get k' (images (data sample)))
  /\ removeImageIfUnused None (data sample) = data sample
  /\ removeImageIfUnused (Some []) (data sample) = data sample.
Proof.
  apply (release_removes_unreferenced 105 (js "mg-1700000000000-k3x9")).
  intros [(p & Hin & Heq)|(r & Hin & Heq)].
  - cbn in Hin. destruct Hin as [<-|[<-|[]]]; discriminate.
  - cbn in Hin. destruct Hin as [<-|[]]; discriminate.
Defined.

(** ** [deleteReply] *)

Lemma findIndex_In {A} (f : A -> bool) l :
  findIndex f l = None <-> Forall (fun x => f x = false) l.
Proof.
  split; [apply findIndex_None|].
  induction 1 as [|a l Ha _ IH]; cbn [findIndex]; [reflexivity|].
  rewrite Ha, IH. reflexivity.
Qed.

Lemma find_reply_index id rs :
  In id (map Reply.id rs) ->
  exists i, findIndex (fun r => Reply.id r =? id) rs = Some i.
Proof.
  intros Hin. destruct (findIndex _ rs) as [i|] eqn:Hfind; [eauto|].
  apply findIndex_In in Hfind. rewrite List.Forall_forall in Hfind.
  apply in_map_iff in Hin as (r & <- & Hin). specialize (Hfind r Hin).
  cbn in Hfind. rewrite Z.eqb_refl in Hfind. discriminate.
Qed.

(** X6. [deleteReply] removes the replies that carry the id and keeps the
    others in their order; posts keep their content, the counter is
    unchanged and the result is persisted. An id that no reply carries, or
    a declined confirmation, changes nothing. *)
Theorem deleteReply_spec id s :
  (In id (map Reply.id (replies (data s))) ->
   replies (data (deleteReply id true s))
   = List.filter (fun r => negb (Reply.id r =? id)) (replies (data s))
   /\ map without_image (posts (data (deleteReply id true s)))
      = map without_image (posts (data s))
   /\ lastId (data (deleteReply id true s)) = lastId (data s)
   /\ in_sync (deleteReply id true s))
  /\ (~ In id (map Reply.id (replies (data s))) -> deleteReply id true s = s)
  /\ deleteReply id false s = s.
Proof.
  unfold deleteReply. split; [|split].
  - intros Hin. destruct (find_reply_index _ _ Hin) as [i ->]. cbn [negb].
    match goal with |- context [persistData ?st] =>
      destruct (persistData_frame st) as (_ & Hr & Hl & Hp) end.
    rewrite Hr, Hl, Hp. cbn [data set_data replies posts lastId set_replies].
    rewrite removeImageIfUnused_replies, removeImageIfUnused_posts.
    repeat split. apply (removeImageIfUnused_frame _ (data s)).
  - intros Hnot. destruct (findIndex _ _) as [i|] eqn:Hfind; [|reflexivity].
    apply findIndex_Some in Hfind as (r & Hi & Hid & _).
    apply Z.eqb_eq in Hid. contradict Hnot. apply in_map_iff. exists r.
    split; [assumption|]. apply list_elem_of_In, list_elem_of_lookup. eauto.
  - destruct (findIndex _ _); reflexivity.
Qed.

(** ** [toggleLike] *)

Lemma lookup_same_but_images ps ps' i p :
  map without_image ps' = map without_image ps ->
  ps !! i = Some p ->
  exists p', ps' !! i = Some p'
    /\ Post.liked p' = Post.liked p /\ Post.likedAt p' = Post.likedAt p
    /\ Post.id p' = Post.id p /\ Post.texts p' = Post.texts p
    /\ Post.tags p' = Post.tags p /\ Post.isDeleted p' = Post.isDeleted p
    /\ Post.createdAt p' = Post.createdAt p.
Proof.
  intros Hmap Hi. destruct (without_image_lookup _ _ _ _ Hmap Hi) as (p' & Hi' & Hw).
  exists p'. split; [assumption|]. repeat split.
  - exact (f_equal Post.liked Hw).
  - exact (f_equal Post.likedAt Hw).
  - exact (f_equal Post.id Hw).
  - exact (f_equal Post.texts Hw).
  - exact (f_equal Post.tags Hw).
  - exact (f_equal Post.isDeleted Hw).
  - exact (f_equal Post.createdAt Hw).
Qed.

(** X7. [toggleLike] on a post that is not deleted flips [liked] and
    leaves [likedAt] set to the clock exactly when the post is now liked;
    its other content, the other posts and the replies are unchanged and
    the result is persisted. A deleted post or an unknown id is left
    alone. *)
Theorem toggleLike_spec id now s i post :
  findIndex (fun p => Post.id p =? id) (posts (data s)) = Some i ->
  posts (data s) !! i = Some post ->
  (Post.isDeleted post = true -> toggleLike id now s = s)
  /\ (Post.isDeleted post = false ->
      (exists post', posts (data (toggleLike id now s)) !! i = Some post'
         /\ Post.liked post' = negb (Post.liked post)
         /\ Post.likedAt post' = (if Post.liked post then None else Some now)
         /\ Post.texts post' = Post.texts post
         /\ Post.tags post' = Post.tags post)
      /\ (forall j p, j <> i -> posts (data s) !! j = Some p ->
            exists p', posts (data (toggleLike id now s)) !! j = Some p'
              /\ Post.liked p' = Post.liked p /\ Post.likedAt p' = Post.likedAt p)
      /\ replies (data (toggleLike id now s)) = replies (data s)
      /\ in_sync (toggleLike id now s)).
Proof.
  intros Hfind Hi. unfold toggleLike. rewrite Hfind, Hi. split.
  - intros ->. reflexivity.
  - intros ->.
    match goal with |- context [persistData ?st] =>
      destruct (persistData_frame st) as (_ & Hr & _ & Hp); set (s' := persistData st) in * end.
    cbn [data set_data posts replies set_posts] in Hr, Hp.
    split; [|split; [|split; [exact Hr|reflexivity]]].
    + assert (Hnew : alter (stamp_like now) i
                       (alter (with_liked (negb (Post.liked post))) i (posts (data s))) !! i
                     = Some (stamp_like now (with_liked (negb (Post.liked post)) post))).
      { rewrite !list_lookup_alter_eq, Hi. reflexivity. }
      destruct (lookup_same_but_images _ _ _ _ Hp Hnew)
        as (post' & Hi' & Hl & Hat & _ & Ht & Hg & _).
      exists post'. split; [exact Hi'|]. cbn in Hl, Hat, Ht, Hg.
      repeat split; try assumption.
      rewrite Hat. destruct (Post.liked post); reflexivity.
    + intros j p Hj Hjp.
      assert (Hold : alter (stamp_like now) i
                       (alter (with_liked (negb (Post.liked post))) i (posts (data s))) !! j
                     = Some p).
      { rewrite !list_lookup_alter_ne by congruence. exact Hjp. }
      destruct (lookup_same_but_images _ _ _ _ Hp Hold) as (p' & Hj' & Hl & Hat & _).
      exists p'. auto.
Qed.

Lemma toggleLike_spec_witness :
  (Post.isDeleted liked_post = true -> toggleLike 3 1700000009000 sample = sample)
  /\ (Post.isDeleted liked_post = false ->
      (exists post', posts (data (toggleLike 3 1700000009000 sample)) !! 1%nat = Some post'
         /\ Post.liked post' = negb (Post.liked liked_post)
         /\ Post.likedAt post'
            = (if Post.liked liked_post then None else Some 1700000009000)
         /\ Post.texts post' = Post.texts liked_post
         /\ Post.tags post' = Post.tags liked_post)
      /\ (forall j p, j <> 1%nat -> posts (data sample) !! j = Some p ->
            exists p', posts (data (toggleLike 3 1700000009000 sample)) !! j = Some p'
              /\ Post.liked p' = Post.liked p /\ Post.likedAt p' = Post.likedAt p)
      /\ replies (data (toggleLike 3 1700000009000 sample)) = replies (data sample)
      /\ in_sync (toggleLike 3 1700000009000 sample)).
Proof. apply (toggleLike_spec 3 1700000009000 sample 1 liked_post); reflexivity. Defined.

(** An unknown id: nothing happens. *)
Lemma toggleLike_unknown id now s :
  ~ In id (map Post.id (posts (data s))) -> toggleLike id now s = s.
Proof.
  intros Hnot. unfold toggleLike.
  destruct (findIndex _ _) as [i|] eqn:Hfind; [|reflexivity].
  apply findIndex_Some in Hfind as (p & Hi & Hid & _).
  apply Z.eqb_eq in Hid. contradict Hnot. apply in_map_iff. exists p.
  split; [assumption|]. apply list_elem_of_In, list_elem_of_lookup. eauto.
Qed.


(** ** Persisting *)

Lemma persistData_settled s : evict_step (data (persistData s)) = None.
Proof.
  rewrite persistData_data.
  destruct (evict_loop_run (S (length (posts (data s)))) (data s)) as (n & _ & Hrun).
  { pose proof (image_count_le (data s)). lia. }
  exact (loop_run_final _ _ _ Hrun).
Qed.

(** X8. Persisting twice is persisting once: after a persist the loop has
    nothing left to do and the slot already holds the serialization. *)
Theorem persistData_idempotent s : persistData (persistData s) = persistData s.
Proof.
  pose proof (persistData_settled s) as Hnone.
  unfold persistData at 1. unfold enforceStorageLimit.
  cbn [data setItem set_data stored evict_loop]. rewrite Hnone.
  unfold persistData, enforceStorageLimit, setItem, set_data. reflexivity.
Qed.

Lemma kept_or_stripped_refl ps : kept_or_stripped ps ps.
Proof. induction ps; constructor; auto. Qed.

Lemma kept_or_stripped_trans ps1 ps2 ps3 :
  kept_or_stripped ps1 ps2 -> kept_or_stripped ps2 ps3 -> kept_or_stripped ps1 ps3.
Proof.
  unfold kept_or_stripped. intros H12. revert ps3.
  induction H12 as [|p p' ps ps' Hp _ IH]; intros ps3 H23.
  - inversion H23. constructor.
  - inversion H23 as [|? p'' ? ps'' Hp' Hrest]; subst.
    constructor; [|apply IH; assumption].
    destruct Hp as [->|[Ht ->]]; [assumption|].
    destruct Hp' as [->|[Ht' _]]; [right; auto|]. discriminate.
Qed.

Lemma kept_or_stripped_alter ps : forall i target,
  ps !! i = Some target -> truthy (Post.imageId target) = true ->
  kept_or_stripped ps (alter strip i ps).
Proof.
  induction ps as [|p ps IH]; intros [|i] target Hi Ht; try discriminate.
  - injection Hi as ->. constructor; [auto|apply kept_or_stripped_refl].
  - constructor; [auto|]. apply (IH i target); assumption.
Qed.

Lemma evict_loop_kept_or_stripped fuel : forall d,
  kept_or_stripped (posts d) (posts (evict_loop fuel d)).
Proof.
  induction fuel as [|fuel IH]; intros d; cbn [evict_loop];
    [apply kept_or_stripped_refl|].
  destruct (evict_step d) as [d1|] eqn:Hstep; [|apply kept_or_stripped_refl].
  eapply kept_or_stripped_trans; [|apply IH].
  apply evict_step_Some in Hstep as [_ Hbody].
  apply evict_body_Some in Hbody as (i & target & (Hi & Ht & _) & ->).
  cbn [posts set_posts]. eapply kept_or_stripped_alter; eassumption.
Qed.

(** X9. A persist changes the data only by taking images from posts: each
    post is as it was, or had an image and now has [imageId] null and
    [imageRemoved] true with everything else as it was; replies, version
    and counter are untouched, and data that fits the limit is not changed
    at all. *)
Theorem persistData_keeps_or_strips s :
  kept_or_stripped (posts (data s)) (posts (data (persistData s)))
  /\ replies (data (persistData s)) = replies (data s)
  /\ version (data (persistData s)) = version (data s)
  /\ lastId (data (persistData s)) = lastId (data s)
  /\ (str_length (stringify (data s)) <= STORAGE_LIMIT ->
      data (persistData s) = data s).
Proof.
  destruct (persistData_frame s) as (Hv & Hr & Hl & _).
  split; [rewrite persistData_data; apply evict_loop_kept_or_stripped|].
  repeat split; try assumption.
  intros Hfit. rewrite persistData_data. cbn [evict_loop]. unfold evict_step.
  destruct (Z.gtb_spec (str_length (stringify (data s))) STORAGE_LIMIT);
    [lia|reflexivity].
Qed.

Lemma loop_run_gone_stays d n d' :
  loop_run d n d' ->
  forall i x, posts d !! i = Some x -> Post.imageId x = None ->
  exists x', posts d' !! i = Some x' /\ Post.imageId x' = None.
Proof.
  induction 1 as [d _|d d1 n d' Hstep _ IH]; intros i x Hi Hx; [eauto|].
  apply evict_step_Some in Hstep as [_ Hbody].
  apply evict_body_Some in Hbody as (k & target & (Hk & Ht & _) & ->).
  destruct (decide (k = i)) as [->|Hne].
  - apply (IH i (strip x)); [|reflexivity].
    cbn [posts set_posts]. rewrite list_lookup_alter_eq, Hi. reflexivity.
  - apply (IH i x); [|assumption].
    cbn [posts set_posts]. rewrite list_lookup_alter_ne by assumption. exact Hi.
Qed.

Lemma loop_run_oldest_first d n d' :
  loop_run d n d' ->
  forall i p j q,
    posts d !! i = Some p -> posts d !! j = Some q ->
    truthy (Post.imageId p) = true -> truthy (Post.imageId q) = true ->
    evicted_before i p j q ->
    (exists q', posts d' !! j = Some q' /\ Post.imageId q' = None) ->
    exists p', posts d' !! i = Some p' /\ Post.imageId p' = None.
Proof.
  induction 1 as [d _|d d1 n d' Hstep Hrun IH]; intros i p j q Hi Hj Hp Hq Hbefore.
  - intros (q' & Hj' & Hnone). rewrite Hj in Hj'. injection Hj' as <-.
    rewrite Hnone in Hq. discriminate.
  - intros Hgone.
    apply evict_step_Some in Hstep as [_ Hbody].
    apply evict_body_Some in Hbody as (k & target & (Hk & Ht & Hmin) & ->).
    destruct (decide (k = i)) as [->|Hki].
    + apply (loop_run_gone_stays _ _ _ Hrun i (strip p)); [|reflexivity].
      cbn [posts set_posts]. rewrite list_lookup_alter_eq, Hi. reflexivity.
    + destruct (decide (k = j)) as [->|Hkj].
      * rewrite Hj in Hk. injection Hk as <-.
        destruct (Hmin i p Hi Hp) as [Hle Htie].
        destruct Hbefore as [Hlt|[Heq Hlt]]; [lia|].
        specialize (Htie Heq). lia.
      * apply (IH i p j q); try assumption;
          cbn [posts set_posts]; rewrite list_lookup_alter_ne by assumption;
          assumption.
Qed.

(** X10. Oldest first, over the whole persist: when a post has lost its
    image to the eviction, every post with an image that is older, or as
    old and earlier in the collection, has lost its image too. *)
Theorem persistData_oldest_first s i p j q :
  posts (data s) !! i = Some p -> posts (data s) !! j = Some q ->
  truthy (Post.imageId p) = true -> truthy (Post.imageId q) = true ->
  evicted_before i p j q ->
  (exists q', posts (data (persistData s)) !! j = Some q'
              /\ Post.imageId q' = None) ->
  exists p', posts (data (persistData s)) !! i = Some p'
             /\ Post.imageId p' = None.
Proof.
  rewrite persistData_data.
  destruct (evict_loop_run (S (length (posts (data s)))) (data s)) as (n & _ & Hrun).
  { pose proof (image_count_le (data s)). lia. }
  exact (loop_run_oldest_first _ _ _ Hrun i p j q).
Qed.

Lemma two_images_second_gone P Q :
  STORAGE_LIMIT <= str_length P + str_length Q ->
  posts (data (persistData (two_images_state P Q))) !! 1%nat = Some (strip postB).
Proof.
  intros Hbig. rewrite (proj1 (two_images_persisted P Q Hbig)). reflexivity.
Qed.

Lemma persistData_oldest_first_witness :
  exists p', posts (data (persistData scenario)) !! 0%nat = Some p'
             /\ Post.imageId p' = None.
Proof.
  apply (persistData_oldest_first scenario 0 postA 1 postB);
    [reflexivity|reflexivity|reflexivity|reflexivity|left; cbn; lia|].
  exists (strip postB). split; [|reflexivity].
  exact (two_images_second_gone _ _ payloads_fit_not).
Defined.


(** ** What the views list *)

(** A filtered and sorted view: its members, its order, and the order of
    the members with equal keys. *)
Lemma sorted_view {A} (key : A -> Z) (cmp : A -> A -> Z) (f : A -> bool) l :
  (forall a b, cmp a b = by_key key a b) ->
  (forall x, In x (js_sort cmp (List.filter f l)) <-> In x l /\ f x = true)
  /\ StronglySorted (fun a b => key a <= key b) (js_sort cmp (List.filter f l))
  /\ (forall k, List.filter (fun a => key a =? k) (js_sort cmp (List.filter f l))
                = List.filter (fun a => key a =? k) (List.filter f l)).
Proof.
  intros Hcmp. rewrite (js_sort_ext _ _ _ Hcmp). split; [|split].
  - intros x. rewrite <- List.filter_In. split; intros H.
    + eapply Permutation_in; [apply js_sort_perm|exact H].
    + eapply Permutation_in; [symmetry; apply js_sort_perm|exact H].
  - apply js_sort_sorted.
  - intros k. apply js_sort_stable.
Qed.

Lemma filter_all {A} (l : list A) : List.filter (fun _ => true) l = l.
Proof. induction l as [|a l IH]; cbn; congruence. Qed.

(** X11. The timeline shows every post once, newest first; posts created
    at the same instant keep the order of the collection. Deleted posts
    are not left out. *)
Theorem renderTimeline_spec s :
  Permutation (renderTimeline s) (posts (data s))
  /\ StronglySorted (fun a b => Post.createdAt b <= Post.createdAt a)
       (renderTimeline s)
  /\ (forall t, List.filter (fun p => Post.createdAt p =? t) (renderTimeline s)
                = List.filter (fun p => Post.createdAt p =? t) (posts (data s))).
Proof.
  unfold renderTimeline. split; [apply js_sort_perm|].
  split; [apply newest_first_sorted|].
  intros t.
  rewrite (js_sort_ext _ (by_key (fun p => - Post.createdAt p)))
    by (intros a b; unfold newest_first, by_key; lia).
  pose proof (js_sort_stable (fun p => - Post.createdAt p) (- t) (posts (data s)))
    as Hst.
  rewrite (List.filter_ext (fun p => Post.createdAt p =? t)
             (fun p => - Post.createdAt p =? - t)).
  - rewrite Hst. apply List.filter_ext. intros p.
    destruct (Z.eqb_spec (Post.createdAt p) t), (Z.eqb_spec (- Post.createdAt p) (- t));
      try reflexivity; lia.
  - intros p.
    destruct (Z.eqb_spec (Post.createdAt p) t), (Z.eqb_spec (- Post.createdAt p) (- t));
      try reflexivity; lia.
Qed.

(** X12. The likes view lists exactly the liked posts, the latest like
    first; a liked post without a time of like counts as liked at 0. *)
Theorem renderLikes_spec s :
  (forall p, In p (renderLikes s) <-> In p (posts (data s)) /\ Post.liked p = true)
  /\ StronglySorted (fun a b => likedAt_or_zero b <= likedAt_or_zero a)
       (renderLikes s).
Proof.
  unfold renderLikes.
  destruct (sorted_view (fun p => - likedAt_or_zero p)
              (fun a b => likedAt_or_zero b - likedAt_or_zero a)
              Post.liked (posts (data s))) as (Hin & Hsorted & _).
  { intros a b. unfold by_key. lia. }
  split; [exact Hin|].
  eapply sorted_weaken; [|exact Hsorted]. cbn. intros; lia.
Qed.

(** X13. Under a post its card lists exactly the replies whose [postId]
    is the id of the post, oldest first, replies of the same instant in
    the order of the collection. *)
Theorem card_replies_spec post s :
  (forall r, In r (card_replies post s)
             <-> In r (replies (data s)) /\ Reply.postId r = Post.id post)
  /\ StronglySorted (fun a b => Reply.createdAt a <= Reply.createdAt b)
       (card_replies post s)
  /\ (forall t,
        List.filter (fun r => Reply.createdAt r =? t) (card_replies post s)
        = List.filter (fun r => Reply.createdAt r =? t)
            (List.filter (fun r => Reply.postId r =? Post.id post)
               (replies (data s)))).
Proof.
  unfold card_replies.
  destruct (sorted_view Reply.createdAt
              (fun a b => Reply.createdAt a - Reply.createdAt b)
              (fun r => Reply.postId r =? Post.id post) (replies (data s)))
    as (Hin & Hsorted & Hstable).
  { reflexivity. }
  split; [|split; assumption].
  intros r. rewrite Hin, Z.eqb_eq. reflexivity.
Qed.

Section ViewFacts.
Variable inherited : list Z -> bool.

(** X14. The image tab lists, newest first, only posts with a non-empty
    [imageId], and every such post whose id holds a non-empty payload in
    [images]; a post that lost its image to the eviction is never
    listed. *)
Theorem renderImages_spec s :
  (forall p, In p (renderImages inherited s) ->
     In p (posts (data s)) /\ truthy (Post.imageId p) = true)
  /\ (forall p c k x v,
        In p (posts (data s)) -> Post.imageId p = Some (c :: k) ->
        obj_get (c :: k) (images (data s)) = Some (x :: v) ->
        In p (renderImages inherited s))
  /\ (forall p, In p (renderImages inherited (persistData s)) ->
        Post.imageId p <> None /\ In p (posts (data (persistData s))))
  /\ StronglySorted (fun a b => Post.createdAt b <= Post.createdAt a)
       (renderImages inherited s).
Proof.
  assert (Hview : forall st p, In p (renderImages inherited st) <->
            In p (posts (data st)) /\ image_listed inherited (data st) p = true).
  { intros st p. unfold renderImages. rewrite <- List.filter_In. split; intros H.
    - eapply Permutation_in; [apply js_sort_perm|exact H].
    - eapply Permutation_in; [symmetry; apply js_sort_perm|exact H]. }
  split; [|split; [|split]].
  - intros p Hin. apply Hview in Hin as [Hin Hl]. split; [assumption|].
    unfold image_listed in Hl. apply andb_true_iff in Hl. apply Hl.
  - intros p c k x v Hin Hid Hget. apply Hview. split; [assumption|].
    unfold image_listed, has_payload. rewrite Hid, Hget. reflexivity.
  - intros p Hin. apply Hview in Hin as [Hin Hl]. split; [|assumption].
    unfold image_listed in Hl. destruct (Post.imageId p); [discriminate|discriminate].
  - apply newest_first_sorted.
Qed.

End ViewFacts.


(** ** The form *)

Lemma trimStart_fixed s :
  match s with [] => True | c :: _ => is_space c = false end -> trimStart s = s.
Proof. destruct s as [|c s]; cbn [trimStart]; [reflexivity|]. intros ->. reflexivity. Qed.

Lemma trimStart_head s :
  match trimStart s with [] => True | c :: _ => is_space c = false end.
Proof.
  induction s as [|c s IH]; cbn [trimStart]; [exact I|].
  destruct (is_space c) eqn:E; [exact IH|exact E].
Qed.

Lemma trimStart_idempotent s : trimStart (trimStart s) = trimStart s.
Proof. apply trimStart_fixed, trimStart_head. Qed.

Lemma trimEnd_idempotent s : trimEnd (trimEnd s) = trimEnd s.
Proof.
  unfold trimEnd. rewrite rev_involutive, trimStart_idempotent. reflexivity.
Qed.

Lemma trimEnd_head s :
  match s with [] => True | c :: _ => is_space c = false end ->
  match trimEnd s with [] => True | c :: _ => is_space c = false end.
Proof.
  intros Hs. destruct (trimEnd_split s) as (sp & Hsplit & _).
  destruct (trimEnd s) as [|c t]; [exact I|].
  rewrite Hsplit in Hs. exact Hs.
Qed.

Lemma trim_idempotent s : trim (trim s) = trim s.
Proof.
  unfold trim.
  rewrite (trimStart_fixed (trimEnd (trimStart s)))
    by apply trimEnd_head, trimStart_head.
  apply trimEnd_idempotent.
Qed.




Section FormFacts.
Context {U : Unicode}.


Lemma normalize_newlines_fixed s :
  forallb (fun c => negb (c =? 13)) s = true -> normalize_newlines s = s.
Proof.
  induction s as [|c s IH]; [reflexivity|].
  cbn [forallb normalize_newlines]. intros H.
  apply andb_prop in H as [Hc Hs]. destruct (c =? 13); [discriminate|].
  rewrite IH by exact Hs. reflexivity.
Qed.

Lemma strip_newlines_fixed s :
  forallb (fun c => negb ((c =? 10) || (c =? 13))) s = true -> strip_newlines s = s.
Proof.
  unfold strip_newlines. induction s as [|c s IH]; [reflexivity|].
  cbn [forallb List.filter]. intros H. apply andb_prop in H as [Hc Hs].
  rewrite Hc, IH by exact Hs. reflexivity.
Qed.

Lemma select_value_fixed l :
  existsb (str_eqb l) langOptions = true -> select_value l = l.
Proof. intros H. unfold select_value. rewrite H. reflexivity. Qed.

Lemma select_value_other l :
  existsb (str_eqb l) langOptions = false -> select_value l = js "ja".
Proof. intros H. unfold select_value. rewrite H. reflexivity. Qed.

Lemma forallb_trimStart (f : Z -> bool) s :
  forallb f s = true -> forallb f (trimStart s) = true.
Proof.
  induction s as [|c s IH]; [reflexivity|].
  cbn [trimStart]. destruct (is_space c); [|auto].
  cbn [forallb]. intros H. apply andb_prop in H as [_ H]. auto.
Qed.

Lemma forallb_rev (f : Z -> bool) s : forallb f (rev s) = forallb f s.
Proof.
  induction s as [|c s IH]; [reflexivity|].
  cbn [rev forallb]. rewrite forallb_app, IH. cbn [forallb].
  destruct (f c), (forallb f s); reflexivity.
Qed.

Lemma forallb_trim (f : Z -> bool) s :
  forallb f s = true -> forallb f (trim s) = true.
Proof.
  intros H. unfold trim, trimEnd. rewrite forallb_rev.
  apply forallb_trimStart. rewrite forallb_rev. apply forallb_trimStart, H.
Qed.

Lemma read_block_round_trip b :
  control_values b = true ->
  read_block (block_of_text (read_block b)) = read_block b.
Proof.
  unfold control_values. intros H.
  apply andb_prop in H as [H Hp]. apply andb_prop in H as [Ht Hl].
  unfold read_block, block_of_text.
  cbn [text_area language_select pronunciation_input content language
       pronunciation default].
  unfold id.
  rewrite normalize_newlines_fixed by (apply forallb_trim, Ht).
  rewrite strip_newlines_fixed by (apply forallb_trim, Hp).
  rewrite select_value_fixed by exact Hl.
  rewrite !trim_idempotent. reflexivity.
Qed.

(** X16. Saving again what the form shows: when the texts of a post were
    read from the controls of the form (a text area without CR, a language
    the select offers, a pronunciation without line breaks, each trimmed),
    opening the post for edit and submitting the form untouched gives the
    post the same texts, and the tags of those texts. *)
Theorem edit_unchanged_keeps_texts i p blocks parent e s :
  posts (data s) !! i = Some p ->
  Forall (fun b => control_values b = true) blocks ->
  Post.texts p = map read_block blocks ->
  Exists (fun t => content t <> []) (Post.texts p) ->
  let f := buildPostForm EditMode (Some (PostRef i)) parent (data s) in
  fst (submit f e s) = Submitted
  /\ exists p', posts (data (snd (submit f e s))) !! i = Some p'
       /\ Post.texts p' = Post.texts p
       /\ Post.tags p' = extractTags (Post.texts p).
Proof.
  intros Hi Hctl Htexts Hcontent. cbn zeta.
  set (f := buildPostForm EditMode (Some (PostRef i)) parent (data s)).
  assert (Hblocks : map read_block (text_blocks f) = Post.texts p).
  { unfold f. cbn [text_blocks buildPostForm target_texts]. rewrite Hi, Htexts.
    rewrite !map_map. apply map_ext_in. intros b Hb.
    apply read_block_round_trip.
    rewrite List.Forall_forall in Hctl. apply Hctl, Hb. }
  assert (Hex : Exists (fun b => trim (text_area b) <> []) (text_blocks f)).
  { apply hasContent_Exists. rewrite Hblocks.
    apply existsb_exists. apply List.Exists_exists in Hcontent as (t & Hin & Hne).
    exists t. split; [assumption|]. unfold str_length.
    destruct (content t); [contradiction|reflexivity]. }
  destruct (submit_accepts f e s Hex) as (Hsub & _ & Hdone).
  split; [exact Hsub|].
  unfold submitted in Hdone. cbn [mode targetPost f buildPostForm] in Hdone.
  destruct (Hdone p Hi) as (p' & Hi' & Ht' & Hg' & _).
  exists p'. rewrite Hblocks in Ht', Hg'. repeat split; assumption.
Qed.

End FormFacts.

Lemma edit_unchanged_keeps_texts_witness :
  let f := buildPostForm EditMode (Some (PostRef 0)) 0 (data thread) in
  fst (@submit asciiEngine f sample_env thread) = Submitted
  /\ exists p', posts (data (snd (@submit asciiEngine f sample_env thread))) !! 0%nat
               = Some p'
       /\ Post.texts p' = Post.texts tagged_post
       /\ Post.tags p' = @extractTags asciiEngine (Post.texts tagged_post).
Proof.
  apply (@edit_unchanged_keeps_texts asciiEngine 0 tagged_post [hello_block] 0
           sample_env thread); [reflexivity| |reflexivity|].
  - constructor; [reflexivity|constructor].
  - left. discriminate.
Defined.


(** ** Invariants of a session *)

Lemma ids_wf_same d d' :
  all_ids d' = all_ids d -> lastId d' = lastId d -> ids_wf d -> ids_wf d'.
Proof. unfold ids_wf. intros -> ->. auto. Qed.

Lemma ids_wf_push d d' :
  Permutation (all_ids d') ((lastId d + 1) :: all_ids d) ->
  lastId d' = lastId d + 1 -> ids_wf d -> ids_wf d'.
Proof.
  unfold ids_wf. intros Hperm -> [Hnd Hle]. split.
  - eapply Permutation_NoDup; [symmetry; exact Hperm|].
    constructor; [|assumption]. intros Hin.
    rewrite List.Forall_forall in Hle. specialize (Hle _ Hin). lia.
  - eapply Permutation_Forall; [symmetry; exact Hperm|].
    constructor; [lia|]. eapply List.Forall_impl; [|exact Hle]. cbn. intros; lia.
Qed.

Lemma map_filter_In {A B} (f : A -> B) g l x :
  In x (map f (List.filter g l)) -> In x (map f l).
Proof.
  rewrite !in_map_iff. intros (a & Ha & Hin). apply List.filter_In in Hin as [Hin _].
  eauto.
Qed.

Lemma map_filter_NoDup {A B} (f : A -> B) g l :
  List.NoDup (map f l) -> List.NoDup (map f (List.filter g l)).
Proof.
  induction l as [|a l IH]; cbn [map List.filter]; [auto|].
  intros Hnd. apply List.NoDup_cons_iff in Hnd as [Hnotin Hnd].
  destruct (g a); cbn [map]; [|auto].
  constructor; [|auto]. intros Hin. apply Hnotin. eapply map_filter_In, Hin.
Qed.

Lemma ids_wf_filter d g h :
  ids_wf d ->
  ids_wf (set_replies (List.filter h (replies d))
            (set_posts (List.filter g (posts d)) d)).
Proof.
  unfold ids_wf, all_ids. cbn [posts replies lastId set_posts set_replies].
  intros [Hnd Hle]. split.
  - apply NoDup_ListNoDup in Hnd. apply NoDup_ListNoDup.
    apply NoDup_app in Hnd as (H1 & H2 & H3). apply NoDup_app. repeat split.
    + apply NoDup_ListNoDup, map_filter_NoDup, NoDup_ListNoDup, H1.
    + intros x Hx Hx'. rewrite list_elem_of_In in Hx, Hx'.
      apply map_filter_In in Hx, Hx'. apply (H2 x); apply list_elem_of_In; assumption.
    + apply NoDup_ListNoDup, map_filter_NoDup, NoDup_ListNoDup, H3.
  - rewrite List.Forall_forall in *. intros x Hx. apply Hle.
    apply in_app_or in Hx as [Hx|Hx]; apply map_filter_In in Hx;
      apply in_or_app; auto.
Qed.

Lemma filter_true_id {A} (l : list A) : List.filter (fun _ => true) l = l.
Proof. induction l as [|a l IH]; cbn; congruence. Qed.

Lemma map_id_without_image ps ps' :
  map without_image ps' = map without_image ps -> map Post.id ps' = map Post.id ps.
Proof.
  intros H. apply (f_equal (map Post.id)) in H. rewrite !map_map in H. exact H.
Qed.

Lemma persistData_ids s :
  all_ids (data (persistData s)) = all_ids (data s)
  /\ lastId (data (persistData s)) = lastId (data s).
Proof.
  destruct (persistData_frame s) as (_ & Hr & Hl & Hp).
  unfold all_ids. rewrite Hr, (map_id_without_image _ _ Hp). auto.
Qed.

Lemma map_alter_id {A} (f : A -> Z) (g : A -> A) l i :
  (forall x, f (g x) = f x) -> map f (alter g i l) = map f l.
Proof. intros H. apply map_alter_absorb. exact H. Qed.

Lemma mutate_target_ids t fp fr d :
  (forall p, Post.id (fp p) = Post.id p) ->
  (forall r, Reply.id (fr r) = Reply.id r) ->
  all_ids (mutate_target t fp fr d) = all_ids d
  /\ lastId (mutate_target t fp fr d) = lastId d.
Proof.
  intros Hp Hr. unfold all_ids. destruct t; cbn [mutate_target posts replies lastId
    set_posts set_replies]; rewrite ?(map_alter_id Post.id), ?(map_alter_id Reply.id);
    auto.
Qed.

Lemma removeImageIfUnused_ids i d :
  all_ids (removeImageIfUnused i d) = all_ids d
  /\ lastId (removeImageIfUnused i d) = lastId d.
Proof.
  destruct (removeImageIfUnused_frame i d) as (_ & Hp & Hr & Hl).
  unfold all_ids. rewrite Hp, Hr. auto.
Qed.

Lemma mutate_target_ids_after d x t fp fr :
  (forall p, Post.id (fp p) = Post.id p) ->
  (forall r, Reply.id (fr r) = Reply.id r) ->
  all_ids x = all_ids d /\ lastId x = lastId d ->
  all_ids (mutate_target t fp fr x) = all_ids d
  /\ lastId (mutate_target t fp fr x) = lastId d.
Proof.
  intros Hp Hr [H1 H2]. destruct (mutate_target_ids t fp fr x Hp Hr) as [H3 H4].
  split; congruence.
Qed.

Lemma removeImageIfUnused_ids_after d x i :
  all_ids x = all_ids d /\ lastId x = lastId d ->
  all_ids (removeImageIfUnused i x) = all_ids d
  /\ lastId (removeImageIfUnused i x) = lastId d.
Proof.
  intros [H1 H2]. destruct (removeImageIfUnused_ids i x) as [H3 H4].
  split; congruence.
Qed.

Lemma edit_target_ids f e t textBlocks tags imageId d :
  all_ids (edit_target f e t textBlocks tags imageId d) = all_ids d
  /\ lastId (edit_target f e t textBlocks tags imageId d) = lastId d.
Proof.
  unfold edit_target.
  repeat match goal with
  | |- context [match ?x with Some _ => _ | None => _ end] => destruct x
  | |- context [if ?b then _ else _] => destruct b
  end;
  repeat first
    [ apply removeImageIfUnused_ids_after
    | apply mutate_target_ids_after; [reflexivity|reflexivity|] ];
  split; reflexivity.
Qed.

Section SessionFacts.
Context {U : Unicode}.

(** What an action does, up to the persist that ends it. *)
Lemma act_cases a s :
  act a s = s
  \/ exists d',
       act a s = persistData (set_data d' s)
       /\ (ids_wf (data s) -> ids_wf d')
       /\ lastId (data s) <= lastId d' <= lastId (data s) + 1.
Proof.
  destruct a as [f e|id c|id c|id now]; cbn [act].
  - unfold submit. destruct (existsb _ _); cbn [negb snd]; [|left; reflexivity].
    pose proof (chosen_image_frame f e (data s)) as Hframe.
    destruct (chosen_image f e (data s)) as [imageId d]. cbn [snd] in *.
    destruct Hframe as (_ & Hp & Hr & Hl).
    assert (Hids : all_ids d = all_ids (data s)) by (unfold all_ids; congruence).
    right. eexists. split; [reflexivity|].
    assert (Hpost : forall tb tg,
              (ids_wf (data s) -> ids_wf (push_post f e tb tg imageId d))
              /\ lastId (data s) <= lastId (push_post f e tb tg imageId d)
                 <= lastId (data s) + 1).
    { intros tb tg. split; [|cbn; lia]. apply ids_wf_push; [|cbn; congruence].
      unfold all_ids. cbn [push_post nextId posts replies lastId set_posts set_lastId].
      rewrite <- Hl, <- Hp, <- Hr, map_app. cbn [map].
      rewrite <- app_assoc. apply Permutation_sym, Permutation_middle. }
    assert (Hreply : forall tb tg,
              (ids_wf (data s) -> ids_wf (push_reply f e tb tg imageId d))
              /\ lastId (data s) <= lastId (push_reply f e tb tg imageId d)
                 <= lastId (data s) + 1).
    { intros tb tg. split; [|cbn; lia]. apply ids_wf_push; [|cbn; congruence].
      unfold all_ids. cbn [push_reply nextId posts replies lastId set_replies set_lastId].
      rewrite <- Hl, <- Hp, <- Hr, map_app. cbn [map].
      rewrite app_assoc. apply Permutation_sym, Permutation_cons_append. }
    destruct (mode f), (targetPost f) as [t|]; try apply Hpost; try apply Hreply.
    destruct (edit_target_ids f e t (map read_block (text_blocks f))
                (extractTags (map read_block (text_blocks f))) imageId d)
      as [H1 H2].
    split; [apply ids_wf_same; congruence|lia].
  - unfold deletePost. destruct (findIndex _ _) as [i|]; [|left; reflexivity].
    destruct c; cbn [negb]; [|left; reflexivity].
    right. eexists. split; [reflexivity|].
    destruct (existsb _ _).
    + split; [|cbn; lia]. apply ids_wf_same; [|reflexivity].
      unfold all_ids. cbn [posts replies lastId set_posts].
      rewrite !(map_alter_id Post.id) by reflexivity. reflexivity.
    + destruct (removeImageIfUnused_frame
                  match posts (data s) !! i with
                  | Some post => Post.imageId post
                  | None => None
                  end (data s)) as (Hv & Hp & Hr & Hl).
      cbn zeta in Hp, Hr, Hl. split; [|cbn [lastId set_posts]; lia].
      intros Hwf.
      apply (ids_wf_filter _ (fun p => negb (Post.id p =? id)) (fun _ => true)) in Hwf.
      revert Hwf. apply ids_wf_same.
      * unfold all_ids. cbn [posts replies set_posts set_replies].
        rewrite Hp, Hr, filter_true_id. reflexivity.
      * cbn [lastId set_posts set_replies]. exact Hl.
  - unfold deleteReply. destruct (findIndex _ _) as [i|]; [|left; reflexivity].
    destruct c; cbn [negb]; [|left; reflexivity].
    right. eexists. split; [reflexivity|].
    destruct (removeImageIfUnused_frame
                match replies (data s) !! i with
                | Some target => Reply.imageId target
                | None => None
                end (data s)) as (Hv & Hp & Hr & Hl).
    cbn zeta in Hp, Hr, Hl. split; [|cbn [lastId set_replies]; lia].
    intros Hwf.
    apply (ids_wf_filter _ (fun _ => true) (fun r => negb (Reply.id r =? id))) in Hwf.
    revert Hwf. apply ids_wf_same.
    + unfold all_ids. cbn [posts replies set_posts set_replies].
      rewrite Hp, Hr, filter_true_id. reflexivity.
    + cbn [lastId set_posts set_replies]. exact Hl.
  - unfold toggleLike. destruct (findIndex _ _) as [i|]; [|left; reflexivity].
    destruct (posts (data s) !! i) as [post|]; [|left; reflexivity].
    destruct (Post.isDeleted post); [left; reflexivity|].
    right. eexists. split; [reflexivity|]. split; [|cbn; lia].
    apply ids_wf_same; [|reflexivity].
    unfold all_ids. cbn [posts replies lastId set_posts].
    rewrite !(map_alter_id Post.id) by reflexivity. reflexivity.
Qed.

(** X17. Through any session that starts with a counter in the range
    where [nextId] adds exactly and is short enough to stay there, the
    identifiers stay well formed: no two posts or replies share an id and
    none exceeds [lastId]; [lastId] never decreases, grows by at most one
    per action, and is still in the exact range after every action of
    the session. *)
Theorem session_keeps_ids actions s :
  ids_wf (data s) ->
  counter_exact (data s) (length actions) ->
  ids_wf (data (run actions s))
  /\ lastId (data s) <= lastId (data (run actions s))
     <= lastId (data s) + Z.of_nat (length actions)
  /\ forall k, (k <= length actions)%nat ->
       counter_exact (data (run (take k actions) s)) (length actions - k).
Proof.
  intros Hwf Hexact.
  assert (Hgen : forall acts st, ids_wf (data st) ->
            ids_wf (data (run acts st))
            /\ lastId (data st) <= lastId (data (run acts st))
               <= lastId (data st) + Z.of_nat (length acts)).
  { unfold run. induction acts as [|a acts IH]; intros st Hst;
      cbn [fold_left length]; [split; [assumption|lia]|].
    assert (Hstep : ids_wf (data (act a st))
                    /\ lastId (data st) <= lastId (data (act a st))
                       <= lastId (data st) + 1).
    { destruct (act_cases a st) as [->|(d' & -> & Hwf' & Hle)];
        [split; [assumption|lia]|].
      destruct (persistData_ids (set_data d' st)) as [Hids Hl].
      cbn [data set_data] in Hids, Hl. split; [|lia].
      eapply ids_wf_same; [exact Hids|exact Hl|auto]. }
    destruct Hstep as [Hwf1 Hle1]. destruct (IH _ Hwf1) as [Hwf2 Hle2].
    split; [assumption|lia]. }
  destruct (Hgen actions s Hwf) as [Hfinal Hle].
  split; [exact Hfinal|]. split; [exact Hle|].
  intros k Hk. destruct (Hgen (take k actions) s Hwf) as [_ Hk'].
  rewrite length_take in Hk'. destruct Hexact as [Hlow Hhigh].
  unfold counter_exact. split; lia.
Qed.

(** X18. Through any session the slot stays in step with the data: if it
    held the serialization of the data before, it does after, because
    every action that changes the data ends with a persist. *)
Theorem session_keeps_in_sync actions s :
  in_sync s -> in_sync (run actions s).
Proof.
  unfold run. revert s. induction actions as [|a actions IH]; intros s Hsync;
    cbn [fold_left]; [assumption|].
  apply IH. destruct (act_cases a s) as [->|(d' & -> & _)]; [assumption|].
  apply persistData_stored.
Qed.

End SessionFacts.


Lemma session_keeps_ids_witness :
  ids_wf (data (@run asciiEngine
                  [Submit reply_form sample_env; ToggleLike 3 1700000011000;
                   DeleteReply 2 true] sample))
  /\ lastId (data sample)
     <= lastId (data (@run asciiEngine
                        [Submit reply_form sample_env; ToggleLike 3 1700000011000;
                         DeleteReply 2 true] sample))
     <= lastId (data sample) + 3.
Proof.
  destruct (@session_keeps_ids asciiEngine
              [Submit reply_form sample_env; ToggleLike 3 1700000011000;
               DeleteReply 2 true] sample) as (Hwf & Hle & _).
  - split.
    + vm_compute. repeat constructor; cbn; intuition discriminate.
    + vm_compute. repeat constructor; discriminate.
  - unfold counter_exact, MAX_SAFE_INTEGER. cbn. lia.
  - split; [exact Hwf|exact Hle].
Defined.

Lemma session_keeps_in_sync_witness :
  in_sync (@run asciiEngine
             [Submit reply_form sample_env; ToggleLike 3 1700000011000;
              DeleteReply 2 true] (persistData sample)).
Proof. apply (@session_keeps_in_sync asciiEngine). apply persistData_stored. Defined.

(** ** Tags and the search *)

Section TagSearchFacts.
Context {U : Unicode}.

Lemma tokens_no_hash s : ~ In 35 s -> tokens s = [].
Proof.
  induction s as [|c s IH]; cbn [tokens In]; [reflexivity|].
  intros Hno. destruct (Z.eqb_spec c 35) as [->|_]; [tauto|]. apply IH. tauto.
Qed.

(** X19. Tags accumulate text by text: the tags of a longer list of texts
    are the tags of its first part followed by the tags of the rest that
    are new; and texts without a [#] have no tags. *)
Theorem extractTags_app a b :
  extractTags (a ++ b)
  = extractTags a ++ List.filter (fresh_for (extractTags a)) (extractTags b)
  /\ ((forall t, In t a -> ~ In 35 (content t)) -> extractTags a = []).
Proof.
  split.
  - rewrite (extractTags_fold (a ++ b)), flat_map_app. unfold add_all.
    rewrite fold_left_app. fold (add_all (flat_map (fun t => tokens (content t)) a) []).
    rewrite <- extractTags_fold.
    fold (add_all (flat_map (fun t => tokens (content t)) b) (extractTags a)).
    rewrite add_all_first_occurrences, <- extractTags_first_occurrences. reflexivity.
  - intros Hno. rewrite extractTags_first_occurrences.
    assert (H : flat_map (fun t => tokens (content t)) a = []); [|rewrite H; reflexivity].
    induction a as [|t a IH]; cbn [flat_map]; [reflexivity|].
    rewrite tokens_no_hash by (apply Hno; left; reflexivity).
    apply IH. intros t' Hin. apply Hno. right. assumption.
Qed.

Lemma tag_char_no_space c :
  (forall x, is_space x = true -> unicodeLN x = false) ->
  tag_char c = true -> is_space c = false.
Proof.
  intros Hengine Htag. destruct (is_space c) eqn:Hs; [|reflexivity].
  specialize (Hengine c Hs). unfold tag_char, letter_or_number in Htag.
  rewrite Hengine in Htag.
  unfold is_space, is_ascii, ascii_upper, ascii_lower, ascii_digit in *.
  exfalso.
  destruct ((0 <=? c) && (c <? 128)) eqn:Ha;
    rewrite ?orb_true_iff, ?andb_true_iff, ?Z.leb_le, ?Z.ltb_lt, ?Z.eqb_eq in *;
    intuition lia.
Qed.

Lemma surrogate_no_space c :
  is_high c = true \/ is_low c = true -> is_space c = false.
Proof.
  intros H. destruct (is_space c) eqn:Hs; [|reflexivity]. exfalso.
  unfold is_space, is_high, is_low in *.
  rewrite ?orb_true_iff, ?andb_true_iff, ?Z.leb_le, ?Z.ltb_lt, ?Z.eqb_eq in *.
  intuition lia.
Qed.

Lemma class_word_no_space w :
  (forall x, is_space x = true -> unicodeLN x = false) ->
  class_word w -> Forall (fun c => is_space c = false) w.
Proof.
  intros Hengine. induction 1; repeat constructor;
    auto using tag_char_no_space, surrogate_no_space.
Qed.

Lemma class_word_no_hash w : class_word w -> ~ In 35 w.
Proof.
  induction 1 as [|c w Hc _ IH|h l w Hh Hl _ _ IH]; cbn [In]; [tauto| |].
  - intros [->|Hin]; [|tauto]. vm_compute in Hc. discriminate.
  - intros [->|[->|Hin]]; [discriminate|discriminate|tauto].
Qed.

Lemma tag_shape texts tag :
  (forall x, is_space x = true -> unicodeLN x = false) ->
  In tag (extractTags texts) ->
  tag <> [] /\ ~ In 35 tag /\ Forall (fun c => is_space c = false) tag.
Proof.
  intros Hengine. rewrite extractTags_first_occurrences, first_occurrences_In.
  rewrite in_flat_map. intros (t & _ & Hin).
  destruct (tokens_shape _ _ Hin) as (Hne & Hw & _).
  auto using class_word_no_hash, class_word_no_space.
Qed.

(** X20. A tag is one search term: it is not empty and contains neither a
    [#] nor white space (given that the engine classes no white space as a
    letter or number). *)
Theorem tags_are_single_terms texts tag :
  (forall x, is_space x = true -> unicodeLN x = false) ->
  In tag (extractTags texts) ->
  tag <> [] /\ ~ In 35 tag /\ Forall (fun c => is_space c = false) tag.
Proof. apply tag_shape. Qed.

Lemma words_from_no_space s :
  Forall (fun c => is_space c = false) s ->
  forall w, words_from w s = match w ++ s with [] => [] | x => [x] end.
Proof.
  induction 1 as [|c s Hc _ IH]; intros w; cbn [words_from].
  - rewrite app_nil_r. destruct w; reflexivity.
  - rewrite Hc, IH, <- app_assoc. reflexivity.
Qed.

(** X21. Clicking the chip of a tag searches for [#tag]: the search then
    returns every post that is not deleted and carries the tag, when the
    tags of the post are those extracted from its texts. *)
Theorem tag_chip_finds_post s p tag :
  (forall x, is_space x = true -> unicodeLN x = false) ->
  In p (posts (data s)) -> Post.isDeleted p = false ->
  Post.tags p = extractTags (Post.texts p) -> In tag (Post.tags p) ->
  In p (runSearch (35 :: tag) s).
Proof.
  intros Hengine Hin Hdel Htags Htag.
  assert (Hshape : tag <> [] /\ ~ In 35 tag /\ Forall (fun c => is_space c = false) tag).
  { apply (tag_shape (Post.texts p)); [assumption|]. rewrite <- Htags.
    assumption. }
  destruct Hshape as (Hne & _ & Hns).
  rewrite runSearch_coded. unfold search_as_coded.
  eapply Permutation_in; [symmetry; apply js_sort_perm|].
  apply List.filter_In. split; [assumption|].
  assert (Hwords : words (35 :: tag) = [35 :: tag]).
  { unfold words. rewrite words_from_no_space; [reflexivity|].
    constructor; [reflexivity|assumption]. }
  rewrite Hwords. unfold effective_tag_filter, stated_tag_filter, plain_terms.
  cbn [List.filter is_hash_term negb last option_map drop].
  rewrite Z.eqb_refl. cbn [List.filter negb last option_map drop].
  destruct tag as [|c tag]; [contradiction|].
  unfold search_hit. rewrite Hdel. cbn [negb andb forallb].
  rewrite andb_true_r. apply existsb_exists. exists (c :: tag).
  split; [assumption|]. unfold same_ignoring_case. apply str_eqb_refl.
Qed.

(** X22. After a confirmed [deletePost(id)] no search returns a post with
    that id, whether the post was removed or only marked deleted (ids of
    posts being distinct). *)
Theorem deleted_post_not_found id s input p :
  List.NoDup (map Post.id (posts (data s))) ->
  In p (runSearch input (deletePost id true s)) -> Post.id p <> id.
Proof.
  intros Hnd Hin. rewrite runSearch_coded in Hin. unfold search_as_coded in Hin.
  eapply Permutation_in in Hin; [|apply js_sort_perm].
  apply List.filter_In in Hin as [Hin Hhit].
  assert (Hlive : Post.isDeleted p = false).
  { unfold search_hit in Hhit. destruct (Post.isDeleted p); [discriminate|reflexivity]. }
  destruct (findIndex (fun q => Post.id q =? id) (posts (data s))) as [i|] eqn:Hfind.
  - destruct (existsb (fun r => Reply.postId r =? id) (replies (data s))) eqn:Hreplies.
    + unfold deletePost in Hin. rewrite Hfind, Hreplies in Hin. cbn [negb] in Hin.
      match type of Hin with In _ (posts (data (persistData ?st))) =>
        destruct (persistData_frame st) as (_ & _ & _ & Hp) end.
      cbn [data set_data posts set_posts] in Hp.
      apply list_elem_of_In, list_elem_of_lookup in Hin as [j Hj].
      destruct (lookup_same_but_images _ _ _ _ (eq_sym Hp) Hj)
        as (q & Hq & _ & _ & Hid & _ & _ & Hdel & _).
      destruct (findIndex_Some _ _ _ Hfind) as (post & Hi & Hpid & _).
      apply Z.eqb_eq in Hpid.
      destruct (decide (i = j)) as [->|Hne].
      * rewrite !list_lookup_alter_eq, Hi in Hq. injection Hq as <-.
        cbn in Hdel. congruence.
      * rewrite !list_lookup_alter_ne in Hq by assumption.
        rewrite <- Hid. intros Heq.
        apply NoDup_ListNoDup in Hnd. apply Hne.
        apply (NoDup_lookup _ i j id Hnd).
        -- change (map Post.id ?l) with (Post.id <$> l).
           rewrite list_lookup_fmap, Hi. cbn. congruence.
        -- change (map Post.id ?l) with (Post.id <$> l).
           rewrite list_lookup_fmap, Hq. cbn. congruence.
    + destruct (deletePost_hard id s i Hfind Hreplies) as [Hall _].
      rewrite List.Forall_forall in Hall. apply Hall. assumption.
  - unfold deletePost in Hin. rewrite Hfind in Hin.
    apply findIndex_None in Hfind. rewrite List.Forall_forall in Hfind.
    specialize (Hfind p Hin). cbn in Hfind. apply Z.eqb_neq. assumption.
Qed.


End TagSearchFacts.

Lemma ascii_engine_sane x : is_space x = true -> @unicodeLN asciiEngine x = false.
Proof. reflexivity. Qed.

Lemma tags_are_single_terms_witness :
  js "foo" <> [] /\ ~ In 35 (js "foo")
  /\ Forall (fun c => is_space c = false) (js "foo").
Proof.
  apply (@tags_are_single_terms asciiEngine [plain_text "hello #foo"] (js "foo")
           ascii_engine_sane).
  left. reflexivity.
Defined.

Lemma tag_chip_finds_post_witness :
  In tagged_post (@runSearch asciiEngine (35 :: js "foo") thread).
Proof.
  apply (@tag_chip_finds_post asciiEngine thread tagged_post (js "foo")
           ascii_engine_sane);
    [left; reflexivity|reflexivity|reflexivity|left; reflexivity].
Defined.

Lemma deleted_post_not_found_witness :
  List.NoDup (map Post.id (posts (data sample)))
  /\ In liked_post (@runSearch asciiEngine (js "#note") (deletePost 1 true sample))
  /\ Post.id liked_post <> 1.
Proof.
  assert (Hnd : List.NoDup (map Post.id (posts (data sample)))).
  { repeat constructor; cbn; intuition discriminate. }
  assert (Hin : In liked_post
                  (@runSearch asciiEngine (js "#note") (deletePost 1 true sample))).
  { vm_compute. left. reflexivity. }
  split; [exact Hnd|]. split; [exact Hin|].
  exact (@deleted_post_not_found asciiEngine 1 sample (js "#note") liked_post Hnd Hin).
Defined.


